(** * Colorectal Histology notebook: a shallow embedding

    The notebook [resources/deep-learning/Colorectal Histology.ipynb] is a
    linear script: it indexes a directory of images, builds two directory
    loaders, assembles a model, trains it with a per-batch observer and
    finally renders annotated grids for a few validation batches.

    The cells of the notebook are embedded as executable definitions.
    The quantities the framework computes (probabilities, losses, rescaled
    pixels) are taken as exact rationals [Q]; the one division the notebook
    itself performs, for the number of steps of an epoch, is rounded to
    float64 as Python does.  Python exceptions are the [Err] branch of a
    small result monad; the calls into the plotting library are collected
    as the list of figures they draw. *)

From stdpp Require Import base option list strings gmap sorting pretty.
From Stdlib Require Import ZArith QArith Qround Qpower Lia Lqa Ascii.
From Stdlib.Strings Require Byte.

Close Scope Q_scope.
Local Open Scope string_scope.
Local Open Scope list_scope.
Local Open Scope nat_scope.

(** ** Python values and exceptions *)

Inductive PyError : Type :=
  | IndexError
  | KeyError
  | ValueError
  | ZeroDivisionError
  | OverflowError.

Inductive Result (A : Type) : Type :=
  | Ok (a : A)
  | Err (e : PyError).
Arguments Ok {A} a.
Arguments Err {A} e.

(** The exception monad, with stdpp's [x ← r; k] notation. *)
#[global] Instance Result_ret : MRet Result := λ A a, Ok a.
#[global] Instance Result_bind : MBind Result := λ A B k r,
  match r with
  | Ok a => k a
  | Err e => Err e
  end.

#[global] Instance Result_fmap : FMap Result := λ A B f r,
  match r with
  | Ok a => Ok (f a)
  | Err e => Err e
  end.

(** Indexing a sequence: [a[i]] raises [IndexError] out of range. *)
Definition getitem {A : Type} (a : list A) (i : nat) : Result A :=
  match a !! i with
  | Some x => Ok x
  | None => Err IndexError
  end.

(** *** [str.title()] on ASCII strings

    The first cased character of each run of cased characters is put in
    upper case and the others in lower case; uncased characters are kept
    and end the run. *)
Definition is_lower (c : ascii) : bool :=
  let n := nat_of_ascii c in (97 <=? n)%nat && (n <=? 122)%nat.

Definition is_upper (c : ascii) : bool :=
  let n := nat_of_ascii c in (65 <=? n)%nat && (n <=? 90)%nat.

Definition to_upper (c : ascii) : ascii :=
  if is_lower c then ascii_of_nat (nat_of_ascii c - 32) else c.

Definition to_lower (c : ascii) : ascii :=
  if is_upper c then ascii_of_nat (nat_of_ascii c + 32) else c.

Fixpoint title_from (previous_is_cased : bool) (s : string) : string :=
  match s with
  | EmptyString => EmptyString
  | String c rest =>
      if is_lower c then
        String (if previous_is_cased then c else to_upper c) (title_from true rest)
      else if is_upper c then
        String (if previous_is_cased then to_lower c else c) (title_from true rest)
      else String c (title_from false rest)
  end.

Definition title (s : string) : string := title_from false s.

(** *** [np.argmax] along the last axis

    The index of the first maximal entry; an empty row is a [ValueError]. *)
Fixpoint argmax_from (best_i : nat) (best : Q) (i : nat) (row : list Q) : nat :=
  match row with
  | [] => best_i
  | x :: row' =>
      if Qle_bool x best then argmax_from best_i best (S i) row'
      else argmax_from i x (S i) row'
  end.

Definition argmax (row : list Q) : Result nat :=
  match row with
  | [] => Err ValueError
  | x :: row' => Ok (argmax_from 0 x 1 row')
  end.

(** [np.ceil] of a float, as an integer-valued number. *)
Definition np_ceil (q : Q) : Z := Qceiling q.

(** *** [a / b] on integers

    Python's true division of two integers gives the float64 that is
    nearest to the exact quotient, a tie going to the even significand.
    A float64 has a significand of 53 bits: between [2^e] and [2^(e+1)]
    the representable numbers are the multiples of [2^(e-52)], and below
    [2^(-1022)] they are the multiples of [2^(-1074)].  The operands are
    the sample count and the batch size, which are not negative. *)

(** The nearest integer, a tie going to the even one. *)
Definition round_half_even (q : Q) : Z :=
  let f := Qfloor q in
  match (q - inject_Z f ?= 1 # 2)%Q with
  | Lt => f
  | Gt => (f + 1)%Z
  | Eq => if Z.even f then f else (f + 1)%Z
  end.

(** The binary exponent of the quotient of two positive integers: the
    [e] with [2^e <= a/b < 2^(e+1)]. *)
Definition binary_exponent (a b : Z) : Z :=
  let e := (Z.log2 a - Z.log2 b)%Z in
  if Qle_bool (2 ^ e) (inject_Z a / inject_Z b) then e else (e - 1)%Z.

(** The exact quotient, rounded to the spacing of float64 at its
    magnitude. *)
Definition float64_quotient (a b : Z) : Q :=
  let q := (inject_Z a / inject_Z b)%Q in
  let e := Z.max (binary_exponent a b) (-1022) in
  let ulp := (2 ^ (e - 52))%Q in
  (inject_Z (round_half_even (q / ulp)) * ulp)%Q.

(** The division itself: no quotient by zero, and none that rounds beyond
    the largest float64. *)
Definition true_divide (a b : Z) : Result Q :=
  if decide (b = 0%Z) then Err ZeroDivisionError
  else
    let x := float64_quotient a b in
    if Qle_bool (2 ^ 1024) x then Err OverflowError else Ok x.

(** ** Cell 3: the dataset indexer *)

(** An immediate entry of the root directory: a regular file, or a
    sub-directory with the files it holds. *)
Inductive Entry : Type :=
  | File (name : string)
  | Dir (name : string) (files : list string).

Definition item_name (e : Entry) : string :=
  match e with
  | File n => n
  | Dir n _ => n
  end.

Definition is_dir (e : Entry) : bool :=
  match e with
  | File _ => false
  | Dir _ _ => true
  end.

(** [data_dir.glob('*')]: every immediate entry, in the order the
    file system enumerates them. *)
Definition glob_star (root : list Entry) : list Entry := root.

(** [CLASS_NAMES = np.array([item.name for item in data_dir.glob('*')
                             if item.name != "LICENSE.txt"])] *)
Definition CLASS_NAMES (root : list Entry) : list string :=
  item_name <$> filter (λ item, item_name item ≠ "LICENSE.txt") (glob_star root).

(** The names of the immediate sub-directories of the root. *)
Definition subdir_names (root : list Entry) : list string :=
  item_name <$> filter (λ item, is_dir item = true) root.

(** [data_dir.glob('07_ADIPOSE/*')]: the files of one sub-directory. *)
Definition glob_dir (root : list Entry) (name : string) : list string :=
  match filter (λ item, is_dir item = true ∧ item_name item = name) root with
  | Dir _ files :: _ => files
  | _ => []
  end.

(** The file system: the immediate entries of the directory at a path. *)
Definition FileSystem : Type := string → list Entry.

Definition data_dir : string := "Kather_texture_2016_image_tiles_5000/".

(** ** Cell 7: the two directory loaders *)

Definition BATCH_SIZE : nat := 32.
Definition IMG_HEIGHT : nat := 224.
Definition IMG_WIDTH : nat := 224.

(** [ImageDataGenerator(rescale=1./255, validation_split = 0.2)] *)
Record ImageDataGenerator : Type := {
  rescale : Q;
  validation_split : Q
}.

Definition image_generator : ImageDataGenerator :=
  {| rescale := (1 # 255)%Q; validation_split := (2 # 10)%Q |}.

Inductive Subset : Type :=
  | training
  | validation.

(** The keyword arguments of [flow_from_directory]. *)
Record FlowArgs : Type := {
  seed : Z;
  directory : string;
  batch_size : nat;
  shuffle : bool;
  target_size : nat * nat;
  classes : list string;
  subset : Subset
}.

(** An image is a height x width x channels array; a batch pairs the
    images with their label rows. *)
Definition Image : Type := list (list (list Q)).

Record Batch : Type := {
  image_batch : list Image;
  label_batch : list (list Q)
}.

(** [image_batch.shape[0]] *)
Definition shape0 (b : Batch) : nat := length (image_batch b).

(** The shape of an image, when it is a full rectangular array. *)
Definition has_shape (h w c : nat) (img : Image) : Prop :=
  length img = h ∧ Forall (λ row, length row = w ∧ Forall (λ px, length px = c) row) img.

(** Every value of the image lies in the unit interval. *)
Definition pixels_in_unit (img : Image) : Prop :=
  Forall (Forall (Forall (λ v, 0 <= v <= 1)%Q)) img.

(** Modelled from the spec: the framework's directory loader
    ([flow_from_directory] and the iterator it returns) is called by the
    notebook but is not part of the repository.  The model follows the
    contract of the split loader: the class list fixes the one-hot index
    of each class; of the files of each class the leading
    [validation_split] fraction is held out for validation and the rest is
    the training subset; a pass visits the subset in batches of
    [batch_size] samples, the last one possibly shorter, in listing order
    or, when shuffling, in an order drawn under the seed; each image is
    decoded, resized to the target size with three channels, and every
    8-bit value is multiplied by [rescale]; the sequence wraps around to a
    fresh pass when a pass ends. *)
Module Loader.

(** The state of an iterator: what was fixed when it was instantiated,
    and the position in the current pass. *)
Record DirectoryIterator : Type := {
  generator : ImageDataGenerator;
  args : FlowArgs;
  class_indices : gmap string nat;
  num_classes : nat;
  filepaths : list string;
  sample_classes : list nat;
  samples : nat;
  batch_index : nat;
  total_batches_seen : nat;
  index_array : list nat
}.

(** [dict(zip(classes, range(len(classes))))] *)
Definition make_class_indices (cls : list string) : gmap string nat :=
  foldl (λ m kv, <[kv.1 := kv.2]> m) ∅ (zip cls (seq 0 (length cls))).

(** The slice of the listing of one class that belongs to a subset:
    [int(split[0] * n)] up to [int(split[1] * n)]. *)
Definition split_bounds (gen : ImageDataGenerator) (sub : Subset) (num_files : nat)
    : nat * nat :=
  let cut := Z.to_nat (Qfloor (validation_split gen * inject_Z (Z.of_nat num_files))%Q) in
  match sub with
  | validation => (0, cut)
  | training => (cut, num_files)
  end.

(** [l[start:stop]] *)
Definition slice {A : Type} (start stop : nat) (l : list A) : list A :=
  drop start (take stop l).

(** The samples one class contributes: path and class index. *)
Definition list_valid_filenames (root : list Entry) (gen : ImageDataGenerator)
    (sub : Subset) (ci : gmap string nat) (dirname : string) : list (string * nat) :=
  let all_files := glob_dir root dirname in
  let '(start, stop) := split_bounds gen sub (length all_files) in
  (λ fname, (dirname +:+ "/" +:+ fname, default 0 (ci !! dirname)))
    <$> slice start stop all_files.

Definition flow_from_directory (fs : FileSystem) (gen : ImageDataGenerator)
    (a : FlowArgs) : DirectoryIterator :=
  let ci := make_class_indices (classes a) in
  let found :=
    mjoin (list_valid_filenames (fs (directory a)) gen (subset a) ci <$> classes a) in
  {| generator := gen;
     args := a;
     class_indices := ci;
     num_classes := length (classes a);
     filepaths := found.*1;
     sample_classes := found.*2;
     samples := length found;
     batch_index := 0;
     total_batches_seen := 0;
     index_array := [] |}.

(** [len(iterator)]: the number of batches of one pass, for a positive
    batch size. *)
Definition len (it : DirectoryIterator) : nat :=
  let bs := batch_size (args it) in
  (samples it + bs - 1) / bs.

(** Where the next batch starts in the order of the current pass. *)
Definition current_index (it : DirectoryIterator) : nat :=
  if decide (samples it = 0) then 0
  else (batch_index it * batch_size (args it)) `mod` samples it.

(** The label row of a sample: zeros, and a one at its class index. *)
Definition one_hot (width label : nat) : Result (list Q) :=
  if decide (label < width)
  then Ok (<[label := 1%Q]> (replicate width 0%Q))
  else Err IndexError.

Section Batches.
(** The decoder: the 8-bit value at a row, column and channel of the
    image at a path, once resized to a height and width. *)
Variable load_img : string → nat → nat → nat → nat → nat → Byte.byte.
(** The order drawn for [range(n)] after seeding the generator. *)
Variable random_permutation : Z → nat → list nat.

Definition set_index_array (it : DirectoryIterator) : list nat :=
  if shuffle (args it)
  then random_permutation (seed (args it) + Z.of_nat (total_batches_seen it)) (samples it)
  else seq 0 (samples it).

(** The order of the current pass: drawn anew when a pass starts. *)
Definition pass_order (it : DirectoryIterator) : list nat :=
  if decide (batch_index it = 0) then set_index_array it else index_array it.

(** The iterator after it has yielded one more batch. *)
Definition advance (it : DirectoryIterator) : DirectoryIterator :=
  {| generator := generator it;
     args := args it;
     class_indices := class_indices it;
     num_classes := num_classes it;
     filepaths := filepaths it;
     sample_classes := sample_classes it;
     samples := samples it;
     batch_index :=
       if decide (current_index it + batch_size (args it) < samples it)
       then S (batch_index it) else 0;
     total_batches_seen := S (total_batches_seen it);
     index_array := pass_order it |}.

(** The image at a path: decoded, resized, then rescaled. *)
Definition load_and_standardize (it : DirectoryIterator) (path : string) : Image :=
  let '(h, w) := target_size (args it) in
  (λ r, (λ c, (λ ch,
      (inject_Z (Z.of_N (Byte.to_N (load_img path h w r c ch))) * rescale (generator it))%Q)
    <$> seq 0 3) <$> seq 0 w) <$> seq 0 h.

Definition get_batch (it : DirectoryIterator) (idx : list nat) : Result Batch :=
  xs ← mapM (λ j, load_and_standardize it <$> getitem (filepaths it) j) idx;
  ys ← mapM (λ j, c ← getitem (sample_classes it) j;
                  one_hot (size (class_indices it)) c) idx;
  Ok {| image_batch := xs; label_batch := ys |}.

(** The batch made of the samples at the given positions, when all of
    them are samples of the subset. *)
Definition batch_of (it : DirectoryIterator) (idx : list nat) : Batch :=
  {| image_batch :=
       (λ j, load_and_standardize it (default "" (filepaths it !! j))) <$> idx;
     label_batch :=
       (λ j, <[default 0 (sample_classes it !! j) := 1%Q]>
               (replicate (size (class_indices it)) 0%Q)) <$> idx |}.

(** One step of the iterator: the next batch and the advanced state. *)
Definition next (it : DirectoryIterator) : Result (Batch * DirectoryIterator) :=
  let start := current_index it in
  b ← get_batch it (slice start (start + batch_size (args it)) (pass_order it));
  Ok (b, advance it).

(** The first [k] batches an iterator yields, and the state it is
    left in. *)
Fixpoint take_batches (k : nat) (it : DirectoryIterator)
    : Result (list Batch * DirectoryIterator) :=
  match k with
  | 0 => Ok ([], it)
  | S k' =>
      '(b, it1) ← next it;
      '(bs, it2) ← take_batches k' it1;
      Ok (b :: bs, it2)
  end.
End Batches.





(** What instantiation establishes and iteration keeps: every sample has
    a path and a class index, and the class index fits the label row. *)
Definition well_formed (it : DirectoryIterator) : Prop :=
  length (filepaths it) = samples it ∧
  length (sample_classes it) = samples it ∧
  Forall (λ c, c < size (class_indices it)) (sample_classes it).

(** In the middle of a pass the stored order is an order of all the
    samples. *)
Definition index_ok (it : DirectoryIterator) : Prop :=
  batch_index it ≠ 0 → index_array it ≡ₚ seq 0 (samples it).

(** Two states of one and the same loader. *)
Definition same_loader (it it' : DirectoryIterator) : Prop :=
  generator it' = generator it ∧ args it' = args it ∧
  class_indices it' = class_indices it ∧ num_classes it' = num_classes it ∧
  filepaths it' = filepaths it ∧ sample_classes it' = sample_classes it ∧
  samples it' = samples it.

End Loader.

(** The arguments of the two loaders of cell 7, and of the validation
    loader created again in cell 23. *)
Definition train_args (fs : FileSystem) : FlowArgs :=
  {| seed := 2020; directory := data_dir; batch_size := BATCH_SIZE; shuffle := true;
     target_size := (IMG_HEIGHT, IMG_WIDTH); classes := CLASS_NAMES (fs data_dir);
     subset := training |}.

Definition val_args (fs : FileSystem) : FlowArgs :=
  {| seed := 2020; directory := data_dir; batch_size := BATCH_SIZE; shuffle := false;
     target_size := (IMG_HEIGHT, IMG_WIDTH); classes := CLASS_NAMES (fs data_dir);
     subset := validation |}.

Definition train_data_gen (fs : FileSystem) : Loader.DirectoryIterator :=
  Loader.flow_from_directory fs image_generator (train_args fs).

Definition val_data_gen (fs : FileSystem) : Loader.DirectoryIterator :=
  Loader.flow_from_directory fs image_generator (val_args fs).

(** ** Cells 13 to 19: the model, the observer and the training driver *)

(** Modelled from the spec: the metric accumulation of the framework is
    not part of the repository; a metric is a weighted running average of
    the values it has been fed since its last reset, and 0 before any. *)
Record Mean : Type := {
  total : Q;
  count : Q
}.

Definition Mean_reset : Mean := {| total := 0; count := 0 |}.

Definition update_state (m : Mean) (value weight : Q) : Mean :=
  {| total := total m + value * weight; count := count m + weight |}.

Definition result (m : Mean) : Q := (total m / count m)%Q.

(** The composed model: the weights of the pretrained feature extractor,
    its [trainable] flag, the weights of the new dense head, and the state
    of the compiled loss and accuracy metrics. *)
Record Model (W : Type) : Type := {
  extractor : W;
  trainable : bool;
  head : W;
  loss_metric : Mean;
  acc_metric : Mean
}.
Arguments extractor {W} _.
Arguments trainable {W} _.
Arguments head {W} _.
Arguments loss_metric {W} _.
Arguments acc_metric {W} _.

(** [model.reset_metrics()] *)
Definition reset_metrics {W : Type} (m : Model W) : Model W :=
  {| extractor := extractor m; trainable := trainable m; head := head m;
     loss_metric := Mean_reset; acc_metric := Mean_reset |}.

(** [# feature_extractor_layer.trainable = False], were it uncommented. *)
Definition freeze {W : Type} (m : Model W) : Model W :=
  {| extractor := extractor m; trainable := false; head := head m;
     loss_metric := loss_metric m; acc_metric := acc_metric m |}.

(** The observer of cell 19: two histories, empty at construction. *)
Record CollectBatchStats : Type := {
  batch_losses : list Q;
  batch_acc : list Q
}.

Definition CollectBatchStats_init : CollectBatchStats :=
  {| batch_losses := []; batch_acc := [] |}.

(** [logs['loss']] on the dictionary the driver hands over. *)
Definition logs_get (logs : gmap string Q) (key : string) : Result Q :=
  match logs !! key with
  | Some v => Ok v
  | None => Err KeyError
  end.

(** [on_train_batch_end(self, batch, logs)]: the observer and the model it
    is attached to are both updated in place. *)
Definition on_train_batch_end {W : Type} (self : CollectBatchStats) (model : Model W)
    (batch : nat) (logs : gmap string Q) : Result (CollectBatchStats * Model W) :=
  l ← logs_get logs "loss";
  let self1 := {| batch_losses := batch_losses self ++ [l]; batch_acc := batch_acc self |} in
  a ← logs_get logs "acc";
  let self2 := {| batch_losses := batch_losses self1; batch_acc := batch_acc self1 ++ [a] |} in
  Ok (self2, reset_metrics model).

(** For comparison only: the observer without its last line, which
    records the logged values and leaves the metrics accumulating. *)
Definition record_without_reset {W : Type} (self : CollectBatchStats) (model : Model W)
    (batch : nat) (logs : gmap string Q) : Result (CollectBatchStats * Model W) :=
  l ← logs_get logs "loss";
  a ← logs_get logs "acc";
  Ok ({| batch_losses := batch_losses self ++ [l]; batch_acc := batch_acc self ++ [a] |},
      model).

(** [np.ceil(train_data_gen.samples/train_data_gen.batch_size)]: the cell
    as it runs, and the number it binds to [steps_per_epoch] when the
    division does not raise. *)
Definition steps_per_epoch_cell (n_samples n_batch : nat) : Result Z :=
  np_ceil <$> true_divide (Z.of_nat n_samples) (Z.of_nat n_batch).

Definition steps_per_epoch_of (n_samples n_batch : nat) : Z :=
  np_ceil (float64_quotient (Z.of_nat n_samples) (Z.of_nat n_batch)).

Definition steps_per_epoch (it : Loader.DirectoryIterator) : Z :=
  steps_per_epoch_of (Loader.samples it) (batch_size (Loader.args it)).

(** Modelled from the spec: the framework's training driver ([model.fit])
    is called by the notebook but is not part of the repository.  The
    model follows the contract of the training driver: it runs the given
    number of epochs of the given number of steps; each step draws the next
    training batch, lets the optimizer update the parameters that are
    trainable, accumulates the batch's loss and accuracy into the running
    metrics, and then calls the observer with the current metric values;
    the metrics start afresh at each epoch, and the validation pass at the
    end of an epoch changes metric state only.  A failure is fatal. *)
Module Driver.
Section Fit.
Context {W St Obs : Type}.
(** One optimizer step on a batch: the updated extractor and head
    weights, and the loss and the accuracy of the batch. *)
Variable train_on_batch : W → W → Batch → W * W * Q * Q.
(** The training batch sequence. *)
Variable next_batch : St → Result (Batch * St).
(** The metric state a validation pass leaves behind. *)
Variable validate : W → W → Mean * Mean.
(** The per-batch observer. *)
Variable callback : Obs → Model W → nat → gmap string Q → Result (Obs * Model W).

(** What a run has produced so far; [seen] lists the loss and accuracy
    of every batch processed, in order. *)
Record Run : Type := {
  model : Model W;
  observer : Obs;
  source : St;
  seen : list (Q * Q)
}.

Definition train_step (m : Model W) (b : Batch) : Model W * (Q * Q) :=
  let '(e', h', l, a) := train_on_batch (extractor m) (head m) b in
  let w := inject_Z (Z.of_nat (shape0 b)) in
  ({| extractor := if trainable m then e' else extractor m;
      trainable := trainable m;
      head := h';
      loss_metric := update_state (loss_metric m) l w;
      acc_metric := update_state (acc_metric m) a w |}, (l, a)).

Definition make_logs (m : Model W) : gmap string Q :=
  <["loss" := result (loss_metric m)]> (<["acc" := result (acc_metric m)]> ∅).

Fixpoint run_steps (steps step : nat) (r : Run) : Result Run :=
  match steps with
  | 0 => Ok r
  | S steps' =>
      '(b, st') ← next_batch (source r);
      let '(m1, v) := train_step (model r) b in
      '(obs', m2) ← callback (observer r) m1 step (make_logs m1);
      run_steps steps' (S step)
        {| model := m2; observer := obs'; source := st'; seen := seen r ++ [v] |}
  end.

Definition run_validation (r : Run) : Run :=
  let '(vl, va) := validate (extractor (model r)) (head (model r)) in
  {| model := {| extractor := extractor (model r); trainable := trainable (model r);
                 head := head (model r); loss_metric := vl; acc_metric := va |};
     observer := observer r; source := source r; seen := seen r |}.

Fixpoint fit_from (epochs steps : nat) (r : Run) : Result Run :=
  match epochs with
  | 0 => Ok r
  | S epochs' =>
      let r0 := {| model := reset_metrics (model r); observer := observer r;
                   source := source r; seen := seen r |} in
      r1 ← run_steps steps 0 r0;
      fit_from epochs' steps (run_validation r1)
  end.

(** [model.fit(x, epochs=.., steps_per_epoch=.., callbacks=[..])] *)
Definition fit (m : Model W) (x : St) (epochs : nat) (steps : Z) (obs : Obs)
    : Result Run :=
  fit_from epochs (Z.to_nat steps)
    {| model := m; observer := obs; source := x; seen := [] |}.
End Fit.
End Driver.

(** ** Cell 23: the evaluation and report loop *)

(** What the plotting calls leave on the display: one figure per batch,
    each with the sub-plots placed in its 8 by 4 grid. *)
Inductive Color : Type :=
  | green
  | red.

Record Subplot : Type := {
  position : nat;
  shown : Image;
  title_text : string;
  title_color : Color
}.

Record Figure : Type := {
  subplots : list Subplot;
  suptitle : option string
}.

(** [plt.subplot(nrows, ncols, num)]: the plotting library rejects a
    cell number that does not lie between 1 and [nrows * ncols]. *)
Definition subplot (nrows ncols num : nat) : Result unit :=
  if decide (1 ≤ num ≤ nrows * ncols)%nat then Ok () else Err ValueError.

(** [class_names = sorted(val_data_gen.class_indices.items(),
                          key=lambda pair:pair[1])]
    [class_names = np.array([key.title() for key, value in class_names])]

    The items are ordered by their index; the indices of a dictionary built
    from positions are pairwise distinct, so the order is unique. *)
Definition by_index (p q : string * nat) : Prop := (p.2 ≤ q.2)%nat.

#[global] Instance by_index_dec : RelDecision by_index :=
  λ p q, decide (p.2 ≤ q.2)%nat.

Definition class_names_of (it : Loader.DirectoryIterator) : list string :=
  (λ pair, title pair.1)
    <$> merge_sort by_index (map_to_list (Loader.class_indices it)).

(** How the loop over the batches came to its end. *)
Inductive Exit : Type :=
  | by_break
  | by_exhaustion.

Section Report.
Context {St : Type}.
(** The iterator protocol: [None] is the end of the sequence. *)
Variable next : St → Result (option (Batch * St)).
(** [model.predict] on one image: the row of output probabilities. *)
Variable predict : Image → list Q.
Variable class_names : list string.

(** The body of the inner loop, for the sample at position [n]. *)
Definition render_sample (b : Batch) (predicted_id label_id : list nat)
    (predicted_label_batch : list string) (n : nat) : Result Subplot :=
  _ ← subplot 8 4 (n + 1);
  img ← getitem (image_batch b) n;
  p ← getitem predicted_id n;
  l ← getitem label_id n;
  let color := if decide (p = l) then green else red in
  pl ← getitem predicted_label_batch n;
  title_ ← (if decide (p = l) then Ok (title pl)
            else tl ← getitem class_names l; Ok (title pl +:+ "(" +:+ tl +:+ ")"));
  Ok {| position := n + 1; shown := img; title_text := title pl; title_color := color |}.

(** [model.predict(image_batch)]: one row of output probabilities for each
    image of the batch.  The framework refuses a batch without any image
    with a [ValueError]. *)
Definition model_predict (images : list Image) : Result (list (list Q)) :=
  match images with
  | [] => Err ValueError
  | _ :: _ => Ok (predict <$> images)
  end.

(** The body of the outer loop: the figure drawn for one batch. *)
Definition render_batch (batch_count : nat) (b : Batch) : Result Figure :=
  predicted_batch ← model_predict (image_batch b);
  predicted_id ← mapM argmax predicted_batch;
  predicted_label_batch ← mapM (getitem class_names) predicted_id;
  label_id ← mapM argmax (label_batch b);
  cells ← mapM (render_sample b predicted_id label_id predicted_label_batch)
               (seq 0 (shape0 b));
  Ok {| subplots := cells;
        suptitle :=
          match cells with
          | [] => None
          | _ => Some ("Model predictions (green: correct, red: incorrect) for batch "
                       +:+ pretty batch_count)
          end |}.

(** The loop over the batches, stopped when [batch_count] reaches
    [limit].  [None] means the loop is still running when the fuel is
    spent. *)
Fixpoint eval_loop (fuel limit : nat) (st : St) (batch_count : nat)
    (figures : list Figure) : Result (option (list Figure * Exit)) :=
  match fuel with
  | 0 => Ok None
  | S fuel' =>
      o ← next st;
      match o with
      | None => Ok (Some (figures, by_exhaustion))
      | Some (b, st') =>
          let batch_count := batch_count + 1 in
          fig ← render_batch batch_count b;
          let figures := figures ++ [fig] in
          if decide (batch_count = limit) then Ok (Some (figures, by_break))
          else eval_loop fuel' limit st' batch_count figures
      end
  end.

(** [if batch_count == 2: break] *)
Definition default_limit : nat := 2.

Definition report (fuel : nat) (st : St) : Result (option (list Figure * Exit)) :=
  eval_loop fuel default_limit st 0 [].
End Report.

(** A batch the loop body can draw: at least one and at most 32 samples, a
    label row for each image, and every output row and every label row
    non-empty and no wider than the list of class names. *)
Definition renderable (predict : Image → list Q) (class_names : list string)
    (b : Batch) : Prop :=
  0 < shape0 b ≤ 32 ∧
  length (label_batch b) = shape0 b ∧
  Forall (λ img, 0 < length (predict img) ≤ length class_names) (image_batch b) ∧
  Forall (λ row, 0 < length row ≤ length class_names) (label_batch b).

(** The directory iterator under the iterator protocol: it never ends. *)
Definition directory_next (load_img : string → nat → nat → nat → nat → nat → Byte.byte)
    (random_permutation : Z → nat → list nat) (it : Loader.DirectoryIterator)
    : Result (option (Batch * Loader.DirectoryIterator)) :=
  Some <$> Loader.next load_img random_permutation it.

(** A finite sequence of batches under the iterator protocol. *)
Definition list_next (l : list Batch) : Result (option (Batch * list Batch)) :=
  match l with
  | [] => Ok None
  | b :: l' => Ok (Some (b, l'))
  end.

(** ** Sample inputs *)

(** A root directory that holds, next to one class folder and the license
    file, one more regular file. *)
Definition root_with_stray_file : list Entry :=
  [Dir "01_TUMOR" ["10009_CRC-Prim-HE-03_009.tif"]; File "LICENSE.txt"; File "Thumbs.db"].

(** The layout of the extracted archive, cut down to two classes. *)
Definition root_of_archive : list Entry :=
  [Dir "01_TUMOR" ["t0.tif"; "t1.tif"; "t2.tif"; "t3.tif"; "t4.tif"];
   File "LICENSE.txt";
   Dir "02_STROMA" ["s0.tif"; "s1.tif"; "s2.tif"; "s3.tif"; "s4.tif"]].

(** The root directory of the end-to-end scenario: classes "A" and "B"
    with ten images each. *)
Definition scenario_root : list Entry :=
  [Dir "A" ((λ i, "a" +:+ pretty i +:+ ".tif") <$> seq 0 10);
   Dir "B" ((λ i, "b" +:+ pretty i +:+ ".tif") <$> seq 0 10)].

(** A file system whose data directory has that layout. *)
Definition sample_fs : FileSystem := λ _, root_of_archive.

(** A decoder that yields the same mid-grey value everywhere. *)
Definition sample_load_img : string → nat → nat → nat → nat → nat → Byte.byte :=
  λ _ _ _ _ _ _, Byte.x80.

(** A generator that always draws the reversed order. *)
Definition sample_permutation : Z → nat → list nat :=
  λ _ n, reverse (seq 0 n).

(** The validation loader of the notebook, but for images of 2 x 2
    pixels. *)
Definition small_val_args (fs : FileSystem) : FlowArgs :=
  {| seed := 2020; directory := data_dir; batch_size := BATCH_SIZE; shuffle := false;
     target_size := (2, 2); classes := CLASS_NAMES (fs data_dir);
     subset := validation |}.

Definition small_val_data_gen (fs : FileSystem) : Loader.DirectoryIterator :=
  Loader.flow_from_directory fs image_generator (small_val_args fs).

(** The second batch that loader yields. *)
Definition small_val_second_batch : Batch :=
  Loader.batch_of sample_load_img
    (Loader.advance sample_permutation (small_val_data_gen sample_fs)) [0; 1].

(** A training set-up: weights are counters that every optimizer step
    bumps, the loss of a batch is read off the head, every batch is the
    same single sample, and the source never ends. *)
Definition sample_batch : Batch :=
  {| image_batch := [[[[1%Q; 0%Q; 1%Q]]]]; label_batch := [[0%Q; 1%Q]] |}.

Definition sample_train_on_batch : nat → nat → Batch → nat * nat * Q * Q :=
  λ e h _, (S e, S h, (1 # Pos.of_nat (S h))%Q, (1 # 2)%Q).

Definition sample_source : nat → Result (Batch * nat) :=
  λ n, Ok (sample_batch, S n).

Definition sample_validate : nat → nat → Mean * Mean :=
  λ _ _, ({| total := 3; count := 4 |}, {| total := 1; count := 4 |}).

Definition sample_model : Model nat :=
  {| extractor := 7; trainable := true; head := 0;
     loss_metric := Mean_reset; acc_metric := Mean_reset |}.

(** A model that always favours the second of two classes, the sorted
    and capitalised class names of the sample layout, and three batches of
    one sample each: of class 0, of class 1, of class 0. *)
Definition sample_predict : Image → list Q :=
  λ _, [(1 # 5)%Q; (4 # 5)%Q].

Definition sample_class_names : list string := class_names_of (val_data_gen sample_fs).

Definition sample_image : Image := [[[(128 # 255)%Q; (128 # 255)%Q; (128 # 255)%Q]]].

Definition batch_of_class_0 : Batch :=
  {| image_batch := [sample_image]; label_batch := [[1%Q; 0%Q]] |}.

Definition batch_of_class_1 : Batch :=
  {| image_batch := [sample_image]; label_batch := [[0%Q; 1%Q]] |}.

Definition three_batches : list Batch :=
  [batch_of_class_0; batch_of_class_1; batch_of_class_0].

(** ** Cell 3, continued: counting the images *)

(** [fnmatch(name, '*' + suffix)]: the name ends with the suffix. *)
Definition ends_with (suffix name : string) : bool :=
  let n := String.length name in
  let k := String.length suffix in
  (k <=? n) && String.eqb (String.substring (n - k) k name) suffix.

(** What a sub-directory holds; a regular file holds nothing. *)
Definition files_of (e : Entry) : list string :=
  match e with
  | File _ => []
  | Dir _ files => files
  end.

(** [data_dir.glob('*/*.tif')]: the entries named [*.tif] of the immediate
    sub-directories, as pairs of directory and file name. *)
Definition glob_star_tif (root : list Entry) : list (string * string) :=
  mjoin ((λ e, (λ f, (item_name e, f)) <$> filter (λ f, ends_with ".tif" f = true) (files_of e))
           <$> root).

(** [image_count = len(list(data_dir.glob('*/*.tif')))] *)
Definition image_count (root : list Entry) : nat := length (glob_star_tif root).

(** ** The start script [start-notebook.sh] *)

(** What a name in the directory of the script refers to. *)
Inductive Kind : Type :=
  | RegularFile
  | Directory.

#[global] Instance Kind_eq_dec : EqDecision Kind.
Proof. solve_decision. Defined.

(** The external commands the script runs. *)
Inductive Command : Type :=
  | Wget
  | Unzip
  | DockerRun.

Definition ZIP : string := "colorectal_histology.zip".
Definition FOLDER : string := "Kather_texture_2016_image_tiles_5000".

Section StartNotebook.
(** What [wget ... -O ${ZIP}] and [unzip ${ZIP}] leave of the directory;
    the script does not look at their exit status. *)
Variable wget : gmap string Kind → gmap string Kind.
Variable unzip : gmap string Kind → gmap string Kind.

(** The script, from [cd $DIR] on: the directory as it is when the
    container is launched, and the commands run, in order. *)
Definition start_notebook (dir : gmap string Kind) : gmap string Kind * list Command :=
  let '(dir1, run1) :=
    if decide (dir !! ZIP = Some RegularFile) then (dir, [])
    else (wget dir, [Wget]) in
  let '(dir2, run2) :=
    if decide (dir1 !! FOLDER = Some Directory) then (dir1, [])
    else (unzip dir1, [Unzip]) in
  (dir2, run1 ++ run2 ++ [DockerRun]).
End StartNotebook.

(** Tools that do what they are run for: the download leaves the archive,
    the extraction adds the folder. *)
Definition sample_wget (dir : gmap string Kind) : gmap string Kind :=
  <[ZIP := RegularFile]> dir.

Definition sample_unzip (dir : gmap string Kind) : gmap string Kind :=
  <[FOLDER := Directory]> dir.

(** A file system whose data directory holds a stray regular file. *)
Definition stray_fs : FileSystem := λ _, root_with_stray_file.
(** * Properties *)

(** ** The exception monad *)

Lemma bind_Ok {A B : Type} (r : Result A) (k : A → Result B) (b : B) :
  r ≫= k = Ok b ↔ ∃ a, r = Ok a ∧ k a = Ok b.
Proof.
  destruct r as [a|e]; simpl; split.
  - intros H. exists a. done.
  - intros (a' & [= ->] & H). done.
  - intros [=].
  - intros (a' & [=] & _).
Qed.

Lemma getitem_Ok {A : Type} (l : list A) (i : nat) (x : A) :
  getitem l i = Ok x ↔ l !! i = Some x.
Proof.
  unfold getitem. destruct (l !! i); split; intros H; try done; by inversion H.
Qed.

Lemma getitem_lt {A : Type} (l : list A) (i : nat) :
  i < length l → ∃ x, getitem l i = Ok x ∧ l !! i = Some x.
Proof.
  intros Hi. destruct (lookup_lt_is_Some_2 l i Hi) as [x Hx].
  exists x. split; [by apply getitem_Ok | done].
Qed.

(** [mapM] succeeds when each call does, and keeps the length. *)
Lemma mapM_Ok_Forall2 {A B : Type} (f : A → Result B) (l : list A) (k : list B) :
  mapM f l = Ok k ↔ Forall2 (λ a b, f a = Ok b) l k.
Proof.
  revert k. induction l as [|a l IH]; intros k; simpl.
  - split.
    + intros [= <-]. constructor.
    + intros H. by inversion H.
  - split.
    + intros H. apply bind_Ok in H as (b & Hb & H).
      apply bind_Ok in H as (bs & Hbs & [= <-]).
      constructor; [done | by apply IH].
    + intros H. inversion H as [|? b ? bs Hb Hbs]; subst.
      apply bind_Ok. exists b. split; [done|].
      apply bind_Ok. exists bs. split; [by apply IH | done].
Qed.

Lemma mapM_total {A B : Type} (f : A → Result B) (g : A → B) (l : list A) :
  Forall (λ a, f a = Ok (g a)) l → mapM f l = Ok (g <$> l).
Proof.
  intros H. apply mapM_Ok_Forall2.
  induction H; simpl; constructor; done.
Qed.

(** ** [argmax] *)

Lemma argmax_from_bound (row : list Q) (best_i i : nat) (best : Q) :
  best_i < i → argmax_from best_i best i row < i + length row.
Proof.
  revert best_i best i. induction row as [|x row IH]; intros best_i best i Hlt; simpl.
  - lia.
  - destruct (Qle_bool x best).
    + specialize (IH best_i best (S i)). lia.
    + specialize (IH i x (S i)). lia.
Qed.

Lemma argmax_lt (row : list Q) (i : nat) : argmax row = Ok i → i < length row.
Proof.
  destruct row as [|x row]; simpl; [done|].
  intros [= <-]. pose proof (argmax_from_bound row 0 1 x). lia.
Qed.

Lemma argmax_nonempty (row : list Q) :
  0 < length row → ∃ i, argmax row = Ok i ∧ i < length row.
Proof.
  destruct row as [|x row]; simpl; [lia|].
  intros _. eexists. split; [done|].
  pose proof (argmax_from_bound row 0 1 x). lia.
Qed.

Lemma argmax_from_zeros (best_i i k : nat) (best : Q) :
  Qle_bool 0 best = true → argmax_from best_i best i (replicate k 0%Q) = best_i.
Proof.
  intros Hb. revert i. induction k as [|k IH]; intros i; simpl; [done|].
  rewrite Hb. apply IH.
Qed.

Lemma argmax_from_one_hot (i k label : nat) :
  label < k →
  argmax_from 0 0%Q (S i) (<[label := 1%Q]> (replicate k 0%Q)) = S i + label.
Proof.
  revert i k. induction label as [|label IH]; intros i k Hlt.
  - destruct k as [|k]; [lia|]. simpl.
    rewrite argmax_from_zeros by done. lia.
  - destruct k as [|k]; [lia|]. simpl.
    rewrite IH by lia. lia.
Qed.

(** The arg-max of a one-hot row is the index of its one. *)
Lemma argmax_one_hot (width label : nat) :
  label < width → argmax (<[label := 1%Q]> (replicate width 0%Q)) = Ok label.
Proof.
  intros Hlt. destruct width as [|k]; [lia|].
  destruct label as [|label]; simpl.
  - by rewrite argmax_from_zeros.
  - rewrite argmax_from_one_hot by lia. done.
Qed.

(** ** The dataset indexer *)

Lemma CLASS_NAMES_elem (root : list Entry) (c : string) :
  c ∈ CLASS_NAMES root ↔
  c ≠ "LICENSE.txt" ∧ ∃ item, item ∈ root ∧ item_name item = c.
Proof.
  unfold CLASS_NAMES, glob_star. rewrite list_elem_of_fmap. split.
  - intros (item & -> & Hin). apply list_elem_of_filter in Hin as [Hne Hin]. eauto.
  - intros (Hne & item & Hin & <-). exists item. split; [done|].
    apply list_elem_of_filter. done.
Qed.

Lemma CLASS_NAMES_NoDup (root : list Entry) :
  NoDup (item_name <$> root) → NoDup (CLASS_NAMES root).
Proof.
  unfold CLASS_NAMES, glob_star. induction root as [|e root IH]; simpl; intros Hnd.
  - constructor.
  - apply NoDup_cons in Hnd as [Hnotin Hnd].
    rewrite filter_cons. case_decide; simpl; [|by apply IH].
    apply NoDup_cons. split; [|by apply IH].
    intros Hin. apply Hnotin. apply list_elem_of_fmap in Hin as (e' & He' & Hin).
    apply list_elem_of_filter in Hin as [_ Hin].
    apply list_elem_of_fmap. eauto.
Qed.

(** C8, counterexample: with a stray regular file in the root, the class
    names are not the names of the sub-directories: the stray file is
    reported as a class. *)
Lemma CLASS_NAMES_stray_file :
  ¬ (∀ c, c ∈ CLASS_NAMES root_with_stray_file ↔ c ∈ subdir_names root_with_stray_file).
Proof.
  intros H. specialize (H "Thumbs.db").
  assert (Hin : "Thumbs.db" ∈ CLASS_NAMES root_with_stray_file).
  { vm_compute. repeat constructor. }
  apply H in Hin. vm_compute in Hin.
  apply list_elem_of_singleton in Hin. discriminate.
Qed.

(** C8, amended: the class names are the names of all immediate entries of
    the root, files and directories alike, other than "LICENSE.txt"; they
    are exactly the sub-directory names when the entries that are not
    directories are exactly those named "LICENSE.txt". *)
Theorem CLASS_NAMES_spec (root : list Entry) :
  (∀ c, c ∈ CLASS_NAMES root ↔
        c ≠ "LICENSE.txt" ∧ ∃ item, item ∈ root ∧ item_name item = c) ∧
  (Forall (λ item, is_dir item = true ↔ item_name item ≠ "LICENSE.txt") root →
   CLASS_NAMES root = subdir_names root).
Proof.
  split; [apply CLASS_NAMES_elem|].
  unfold CLASS_NAMES, subdir_names, glob_star.
  intros Hall. induction Hall as [|item root Hitem Hall IH]; [done|].
  rewrite !filter_cons.
  destruct (decide (item_name item ≠ "LICENSE.txt")) as [Hne|Heq];
    destruct (decide (is_dir item = true)) as [Hd|Hd]; simpl.
  - f_equal. apply IH.
  - apply Hitem in Hne. done.
  - apply Hitem in Hd. done.
  - apply IH.
Qed.

Lemma CLASS_NAMES_spec_witness :
  CLASS_NAMES root_of_archive = subdir_names root_of_archive.
Proof.
  apply (proj2 (CLASS_NAMES_spec root_of_archive)).
  repeat constructor; simpl; done.
Defined.

(** ** The directory loaders *)

Module LoaderFacts.
Import Loader.

Lemma foldl_insert_zip (l : list string) (k : nat) (m : gmap string nat) :
  NoDup l → (∀ c, c ∈ l → m !! c = None) →
  let m' := foldl (λ m kv, <[kv.1 := kv.2]> m) m (zip l (seq k (length l))) in
  size m' = size m + length l ∧
  (∀ c j, l !! j = Some c → m' !! c = Some (k + j)) ∧
  (∀ c, c ∉ l → m' !! c = m !! c).
Proof.
  revert k m. induction l as [|c0 l IH]; intros k m Hnd Hfresh; simpl.
  - split; [lia|]. split; [|done]. intros c j Hj. done.
  - apply NoDup_cons in Hnd as [Hc0 Hnd].
    destruct (IH (S k) (<[c0 := k]> m) Hnd) as (Hsize & Hin & Hout).
    { intros c Hc. rewrite lookup_insert_ne.
      - apply Hfresh. by right.
      - intros ->. done. }
    split; [|split].
    + rewrite Hsize, map_size_insert_None; [lia|]. apply Hfresh. by left.
    + intros c [|j] Hj; simpl in Hj.
      * injection Hj as ->. rewrite Hout by done.
        rewrite lookup_insert_eq. f_equal. lia.
      * rewrite (Hin c j Hj). f_equal. lia.
    + intros c Hc. apply not_elem_of_cons in Hc as [Hne Hc].
      rewrite Hout by done. by rewrite lookup_insert_ne.
Qed.

(** With pairwise distinct class names, the index of a class is its
    position in the class list, and there is one index per class. *)
Lemma make_class_indices_NoDup (cls : list string) :
  NoDup cls →
  size (make_class_indices cls) = length cls ∧
  (∀ c j, cls !! j = Some c → make_class_indices cls !! c = Some j).
Proof.
  intros Hnd. destruct (foldl_insert_zip cls 0 ∅ Hnd) as (Hsize & Hin & _).
  { intros c _. apply lookup_empty. }
  split.
  - unfold make_class_indices. rewrite Hsize, map_size_empty. done.
  - intros c j Hj. apply (Hin c j Hj).
Qed.

Lemma slice_length {A : Type} (start stop : nat) (l : list A) :
  length (slice start stop l) = Nat.min stop (length l) - start.
Proof. unfold slice. by rewrite length_drop, length_take. Qed.

Lemma slice_Forall {A : Type} (P : A → Prop) (start stop : nat) (l : list A) :
  Forall P l → Forall P (slice start stop l).
Proof. intros H. unfold slice. by apply Forall_drop, Forall_take. Qed.

Lemma flow_from_directory_well_formed (fs : FileSystem) (gen : ImageDataGenerator)
    (a : FlowArgs) :
  NoDup (classes a) → well_formed (flow_from_directory fs gen a).
Proof.
  intros Hnd. destruct (make_class_indices_NoDup _ Hnd) as [Hsize Hidx].
  unfold well_formed, flow_from_directory; simpl.
  rewrite !length_fmap. split; [done|]. split; [done|].
  apply Forall_fmap, Forall_forall. intros [path c] Hin. simpl.
  apply list_elem_of_join in Hin as (found & Hin & Hfound).
  apply list_elem_of_fmap in Hfound as (dirname & -> & Hdir).
  unfold list_valid_filenames in Hin.
  destruct (split_bounds _ _ _) as [start stop].
  apply list_elem_of_fmap in Hin as (fname & [= -> ->] & _).
  apply list_elem_of_lookup in Hdir as [j Hj].
  rewrite (Hidx _ _ Hj), Hsize. simpl.
  by apply lookup_lt_Some in Hj.
Qed.

Section Iteration.
Variable load_img : string → nat → nat → nat → nat → nat → Byte.byte.
Variable random_permutation : Z → nat → list nat.
Hypothesis random_permutation_perm : ∀ s n, random_permutation s n ≡ₚ seq 0 n.

Local Abbreviation next := (next load_img random_permutation).
Local Abbreviation take_batches := (take_batches load_img random_permutation).
Local Abbreviation pass_order := (pass_order random_permutation).
Local Abbreviation advance := (advance random_permutation).
Local Abbreviation get_batch := (get_batch load_img).
Local Abbreviation load_and_standardize := (load_and_standardize load_img).
Local Abbreviation batch_of := (batch_of load_img).

Lemma get_batch_total (it : DirectoryIterator) (idx : list nat) :
  well_formed it → Forall (λ j, j < samples it) idx →
  get_batch it idx = Ok (batch_of it idx).
Proof.
  intros (Hfp & Hsc & Hci) Hidx. unfold get_batch, Loader.get_batch.
  rewrite (mapM_total _
    (λ j, load_and_standardize it (default "" (filepaths it !! j)))).
  2:{ eapply Forall_impl; [exact Hidx|]. intros j Hj. simpl in *.
      destruct (getitem_lt (filepaths it) j) as (p & -> & ->); [lia|]. done. }
  simpl.
  rewrite (mapM_total _
    (λ j, <[default 0 (sample_classes it !! j) := 1%Q]>
            (replicate (size (class_indices it)) 0%Q))).
  2:{ eapply Forall_impl; [exact Hidx|]. intros j Hj. simpl in *.
      destruct (getitem_lt (sample_classes it) j) as (c & -> & Hc); [lia|].
      rewrite Hc. simpl. unfold one_hot.
      rewrite decide_True; [done|].
      rewrite Forall_forall in Hci. apply Hci.
      by apply list_elem_of_lookup_2 in Hc. }
  done.
Qed.

Lemma pass_order_perm (it : DirectoryIterator) :
  index_ok it → pass_order it ≡ₚ seq 0 (samples it).
Proof.
  intros Hok. unfold pass_order, Loader.pass_order, set_index_array.
  case_decide; [|by apply Hok].
  destruct (shuffle (args it)); [apply random_permutation_perm | done].
Qed.

Lemma advance_same_loader (it : DirectoryIterator) : same_loader it (advance it).
Proof. unfold same_loader; simpl. tauto. Qed.

Lemma same_loader_refl (it : DirectoryIterator) : same_loader it it.
Proof. unfold same_loader. tauto. Qed.

Lemma same_loader_trans (it1 it2 it3 : DirectoryIterator) :
  same_loader it1 it2 → same_loader it2 it3 → same_loader it1 it3.
Proof.
  unfold same_loader. intros (?&?&?&?&?&?&?) (?&?&?&?&?&?&?).
  repeat split; congruence.
Qed.

Lemma same_loader_well_formed (it it' : DirectoryIterator) :
  same_loader it it' → well_formed it → well_formed it'.
Proof.
  unfold same_loader, well_formed. intros (?&?&Hc&?&Hf&Hs&Hn) (?&?&?).
  rewrite Hc, Hf, Hs, Hn. done.
Qed.

(** The positions of one batch: at most [batch_size] of them, all of them
    samples of the subset, and exactly [batch_size] unless the pass ends
    with this batch. *)
Lemma next_positions (it : DirectoryIterator) :
  index_ok it →
  let idx := slice (current_index it) (current_index it + batch_size (args it))
                   (pass_order it) in
  Forall (λ j, j < samples it) idx ∧
  length idx ≤ batch_size (args it) ∧
  (length idx = batch_size (args it) ∨ batch_index (advance it) = 0).
Proof.
  intros Hok idx. pose proof (pass_order_perm it Hok) as Hperm.
  assert (Hlen : length (pass_order it) = samples it).
  { rewrite Hperm. apply length_seq. }
  split; [|split].
  - apply slice_Forall. rewrite Hperm. apply Forall_forall.
    intros j Hj. apply elem_of_seq in Hj. lia.
  - unfold idx. rewrite slice_length. lia.
  - unfold idx. rewrite slice_length, Hlen. simpl.
    case_decide; [left; lia | by right].
Qed.

(** A loader that has a sample and a positive batch size never yields an
    empty batch. *)
Lemma next_positions_nonempty (it : DirectoryIterator) :
  index_ok it → 0 < samples it → 0 < batch_size (args it) →
  0 < length (slice (current_index it) (current_index it + batch_size (args it))
                    (pass_order it)).
Proof.
  intros Hok Hn Hbs. pose proof (pass_order_perm it Hok) as Hperm.
  assert (Hlen : length (pass_order it) = samples it).
  { rewrite Hperm. apply length_seq. }
  rewrite slice_length, Hlen.
  assert (Hc : current_index it < samples it).
  { unfold current_index. case_decide; [lia|]. apply Nat.mod_upper_bound. lia. }
  lia.
Qed.

(** The iterator always yields: the next batch is made of the samples at
    the positions of the current slice. *)
Lemma next_total (it : DirectoryIterator) :
  well_formed it → index_ok it →
  next it = Ok (batch_of it (slice (current_index it)
                                   (current_index it + batch_size (args it))
                                   (pass_order it)),
                advance it).
Proof.
  intros Hwf Hok. unfold next, Loader.next.
  destruct (next_positions it Hok) as (Hidx & _).
  fold get_batch. rewrite (get_batch_total it _ Hwf Hidx). done.
Qed.

Lemma advance_index_ok (it : DirectoryIterator) : index_ok it → index_ok (advance it).
Proof. intros Hok _. simpl. by apply pass_order_perm. Qed.

End Iteration.
End LoaderFacts.

Module LoaderRun.
Import Loader LoaderFacts.

Section Run.
Variable load_img : string → nat → nat → nat → nat → nat → Byte.byte.
Variable random_permutation : Z → nat → list nat.

Local Abbreviation next := (next load_img random_permutation).
Local Abbreviation take_batches := (take_batches load_img random_permutation).
Local Abbreviation advance := (advance random_permutation).
Local Abbreviation pass_order := (pass_order random_permutation).
Local Abbreviation batch_of := (batch_of load_img).
Local Abbreviation load_and_standardize := (load_and_standardize load_img).

(** Whatever the state of the data set, a batch that is yielded holds at
    most [batch_size] samples, and the loader stays the same. *)
Lemma next_shape_le (it it' : DirectoryIterator) (b : Batch) :
  next it = Ok (b, it') → shape0 b ≤ batch_size (args it) ∧ same_loader it it'.
Proof.
  unfold next, Loader.next. intros H.
  apply bind_Ok in H as (b' & Hb & [= -> <-]).
  split; [|apply advance_same_loader].
  unfold get_batch in Hb.
  apply bind_Ok in Hb as (xs & Hxs & Hb).
  apply bind_Ok in Hb as (ys & _ & [= <-]).
  apply mapM_Ok_Forall2, Forall2_length in Hxs.
  unfold shape0; simpl. rewrite <- Hxs, slice_length. lia.
Qed.

Lemma take_batches_same_loader (k : nat) (it0 it : DirectoryIterator) (bs : list Batch) :
  take_batches k it0 = Ok (bs, it) → same_loader it0 it.
Proof.
  revert it0 bs. induction k as [|k IH]; intros it0 bs; simpl.
  - intros [= <- <-]. apply same_loader_refl.
  - intros H. apply bind_Ok in H as ([b it1] & Hnext & H).
    apply bind_Ok in H as ([bs' it2] & Htake & [= <- <-]).
    apply next_shape_le in Hnext as [_ Hsame].
    eapply same_loader_trans; [exact Hsame | by eapply IH].
Qed.

Hypothesis random_permutation_perm : ∀ s n, random_permutation s n ≡ₚ seq 0 n.

(** The loaders never fail and never end: any number of batches can be
    drawn, and the iterator is then ready to yield the next one. *)
Lemma take_batches_total (k : nat) (it0 : DirectoryIterator) :
  well_formed it0 → index_ok it0 →
  ∃ bs it, take_batches k it0 = Ok (bs, it) ∧
           well_formed it ∧ index_ok it ∧ same_loader it0 it ∧ length bs = k.
Proof.
  revert it0. induction k as [|k IH]; intros it0 Hwf Hok; simpl.
  - exists [], it0. split; [done|]. split; [done|]. split; [done|].
    split; [apply same_loader_refl | done].
  - rewrite (next_total load_img random_permutation random_permutation_perm it0 Hwf Hok).
    simpl.
    destruct (IH (advance it0)) as (bs & it & Htake & Hwf' & Hok' & Hsame & Hlen).
    { eapply same_loader_well_formed; [apply advance_same_loader | done]. }
    { by apply advance_index_ok. }
    rewrite Htake. simpl. eexists _, it.
    split; [done|]. split; [done|]. split; [done|]. split.
    + eapply same_loader_trans; [apply advance_same_loader | done].
    + simpl. by rewrite Hlen.
Qed.

End Run.
End LoaderRun.

Module BatchFacts.
Import Loader LoaderFacts LoaderRun.

Lemma rescaled_in_unit (v : Byte.byte) :
  (0 <= inject_Z (Z.of_N (Byte.to_N v)) * (1 # 255) <= 1)%Q.
Proof.
  pose proof (Byte.to_N_bounded v) as Hv.
  unfold Qle; simpl. lia.
Qed.

Section Batch.
Variable load_img : string → nat → nat → nat → nat → nat → Byte.byte.

Local Abbreviation batch_of := (batch_of load_img).
Local Abbreviation load_and_standardize := (load_and_standardize load_img).

Lemma load_and_standardize_shape (it : DirectoryIterator) (path : string) (h w : nat) :
  target_size (args it) = (h, w) → has_shape h w 3 (load_and_standardize it path).
Proof.
  intros Ht. unfold load_and_standardize, Loader.load_and_standardize, has_shape.
  rewrite Ht. cbv beta iota. rewrite length_fmap, length_seq. split; [done|].
  apply Forall_fmap, Forall_forall. intros r _. unfold compose; cbv beta.
  rewrite length_fmap, length_seq. split; [done|].
  apply Forall_fmap, Forall_forall. intros c _. unfold compose; cbv beta.
  by rewrite length_fmap, length_seq.
Qed.

Lemma load_and_standardize_range (it : DirectoryIterator) (path : string) :
  rescale (generator it) = (1 # 255)%Q → pixels_in_unit (load_and_standardize it path).
Proof.
  intros Hr. unfold load_and_standardize, Loader.load_and_standardize, pixels_in_unit.
  destruct (target_size (args it)) as [h w]. rewrite Hr.
  apply Forall_fmap, Forall_forall. intros r _. unfold compose; cbv beta.
  apply Forall_fmap, Forall_forall. intros c _. unfold compose; cbv beta.
  apply Forall_fmap, Forall_forall. intros ch _. unfold compose; cbv beta.
  apply rescaled_in_unit.
Qed.

Lemma batch_of_images (it : DirectoryIterator) (idx : list nat) (h w : nat) :
  target_size (args it) = (h, w) → rescale (generator it) = (1 # 255)%Q →
  Forall (λ img, has_shape h w 3 img ∧ pixels_in_unit img) (image_batch (batch_of it idx)).
Proof.
  intros Ht Hr. simpl. apply Forall_fmap, Forall_forall. intros j _. simpl. split.
  - by apply load_and_standardize_shape.
  - by apply load_and_standardize_range.
Qed.

(** Every label row is as wide as there are class indices, and its
    arg-max is the class index of its sample. *)
Lemma batch_of_labels (it : DirectoryIterator) (idx : list nat) :
  well_formed it → Forall (λ j, j < samples it) idx →
  Forall2 (λ j row, length row = size (class_indices it) ∧
                    ∃ c, sample_classes it !! j = Some c ∧ argmax row = Ok c ∧
                         c < size (class_indices it))
          idx (label_batch (batch_of it idx)).
Proof.
  intros (_ & Hsc & Hci) Hidx. simpl.
  apply Forall2_fmap_r, Forall_Forall2_diag.
  eapply Forall_impl; [exact Hidx|]. intros j Hj. simpl in Hj.
  destruct (lookup_lt_is_Some_2 (sample_classes it) j) as [c Hc]; [lia|].
  unfold compose; cbv beta. rewrite !Hc. simpl.
  assert (Hlt : c < size (class_indices it)).
  { rewrite Forall_forall in Hci. apply Hci. by apply list_elem_of_lookup_2 in Hc. }
  split.
  - by rewrite length_insert, length_replicate.
  - exists c. split; [done|]. split; [by apply argmax_one_hot | done].
Qed.

End Batch.

(** The two loaders of the notebook start out well formed as soon as the
    entries of the root directory have pairwise distinct names. *)
Lemma notebook_loaders_well_formed (fs : FileSystem) (it0 : DirectoryIterator) :
  NoDup (item_name <$> fs data_dir) →
  it0 = train_data_gen fs ∨ it0 = val_data_gen fs →
  well_formed it0 ∧ index_ok it0 ∧
  generator it0 = image_generator ∧
  batch_size (args it0) = BATCH_SIZE ∧
  target_size (args it0) = (IMG_HEIGHT, IMG_WIDTH) ∧
  classes (args it0) = CLASS_NAMES (fs data_dir) ∧
  size (class_indices it0) = length (CLASS_NAMES (fs data_dir)) ∧
  num_classes it0 = length (CLASS_NAMES (fs data_dir)).
Proof.
  intros Hnd Hit. apply CLASS_NAMES_NoDup in Hnd.
  destruct (make_class_indices_NoDup _ Hnd) as [Hsize _].
  destruct Hit as [-> | ->].
  - split; [by apply flow_from_directory_well_formed|].
    split; [by intros H|]. done.
  - split; [by apply flow_from_directory_well_formed|].
    split; [by intros H|]. done.
Qed.

End BatchFacts.

(** ** The split loader: partition, batches and labels *)




(** C5: after any number of batches, either loader yields a next batch;
    each of its images is a 224 x 224 x 3 array of values in [0,1]; it
    holds at most 32 images, and exactly 32 unless it is the last batch of
    its pass (the iterator is back at the start of a pass after it). *)
Theorem image_batches_shape_and_range (fs : FileSystem)
    (load_img : string → nat → nat → nat → nat → nat → Byte.byte)
    (random_permutation : Z → nat → list nat) :
  (∀ s n, random_permutation s n ≡ₚ seq 0 n) →
  NoDup (item_name <$> fs data_dir) →
  ∀ it0, it0 = train_data_gen fs ∨ it0 = val_data_gen fs →
  ∀ k, ∃ bs it b it',
    Loader.take_batches load_img random_permutation k it0 = Ok (bs, it) ∧
    Loader.next load_img random_permutation it = Ok (b, it') ∧
    Forall (λ img, has_shape 224 224 3 img ∧ pixels_in_unit img) (image_batch b) ∧
    shape0 b ≤ 32 ∧
    (shape0 b = 32 ∨ Loader.batch_index it' = 0).
Proof.
  intros Hperm Hnd it0 Hit0 k.
  destruct (BatchFacts.notebook_loaders_well_formed fs it0 Hnd Hit0)
    as (Hwf0 & Hok0 & Hgen & Hbs & Hts & _).
  destruct (LoaderRun.take_batches_total load_img random_permutation Hperm k it0 Hwf0 Hok0)
    as (bs & it & Htake & Hwf & Hok & Hsame & _).
  destruct Hsame as (Hg & Ha & _).
  destruct (LoaderFacts.next_positions random_permutation Hperm it Hok)
    as (Hidx & Hle & Hfull).
  eexists bs, it, _, _. split; [exact Htake|].
  split; [exact (LoaderFacts.next_total load_img random_permutation Hperm it Hwf Hok)|].
  split; [|split].
  - apply BatchFacts.batch_of_images.
    + rewrite Ha. exact Hts.
    + rewrite Hg, Hgen. done.
  - unfold shape0. simpl. rewrite length_fmap.
    rewrite <- Ha in Hbs. unfold BATCH_SIZE in Hbs. lia.
  - unfold shape0. simpl. rewrite length_fmap.
    rewrite <- Ha in Hbs. unfold BATCH_SIZE in Hbs.
    destruct Hfull as [Hfull | Hfull]; [left; lia | right; exact Hfull].
Qed.

Lemma image_batches_shape_and_range_witness :
  ∃ bs it b it',
    Loader.take_batches sample_load_img sample_permutation 3 (train_data_gen sample_fs)
      = Ok (bs, it) ∧
    Loader.next sample_load_img sample_permutation it = Ok (b, it') ∧
    Forall (λ img, has_shape 224 224 3 img ∧ pixels_in_unit img) (image_batch b) ∧
    shape0 b ≤ 32 ∧
    (shape0 b = 32 ∨ Loader.batch_index it' = 0).
Proof.
  apply (image_batches_shape_and_range sample_fs sample_load_img sample_permutation).
  - intros s n. apply reverse_Permutation.
  - refine (bool_decide_unpack _ _). vm_compute. exact I.
  - left. reflexivity.
Defined.

(** C6: the class count of either loader is the number of class names
    found by the indexer; every label row the loader yields is as wide as
    that count, and its arg-max is an index below it; the two loaders are
    given the same class list, so they map each class name to the same
    index, its position in that list. *)
Theorem label_batches_one_hot (fs : FileSystem)
    (load_img : string → nat → nat → nat → nat → nat → Byte.byte)
    (random_permutation : Z → nat → list nat) :
  (∀ s n, random_permutation s n ≡ₚ seq 0 n) →
  NoDup (item_name <$> fs data_dir) →
  (∀ it0, it0 = train_data_gen fs ∨ it0 = val_data_gen fs →
   ∀ k, ∃ bs it b it',
     Loader.take_batches load_img random_permutation k it0 = Ok (bs, it) ∧
     Loader.next load_img random_permutation it = Ok (b, it') ∧
     Loader.num_classes it0 = length (CLASS_NAMES (fs data_dir)) ∧
     Forall (λ row, length row = Loader.num_classes it0 ∧
                    ∃ c, argmax row = Ok c ∧ c < Loader.num_classes it0)
            (label_batch b)) ∧
  classes (Loader.args (train_data_gen fs)) = classes (Loader.args (val_data_gen fs)) ∧
  Loader.class_indices (train_data_gen fs) = Loader.class_indices (val_data_gen fs) ∧
  (∀ c j, CLASS_NAMES (fs data_dir) !! j = Some c →
          Loader.class_indices (train_data_gen fs) !! c = Some j ∧
          Loader.class_indices (val_data_gen fs) !! c = Some j).
Proof.
  intros Hperm Hnd. split; [|split; [done|split; [done|]]].
  - intros it0 Hit0 k.
    destruct (BatchFacts.notebook_loaders_well_formed fs it0 Hnd Hit0)
      as (Hwf0 & Hok0 & _ & _ & _ & _ & Hsize & Hnum).
    destruct (LoaderRun.take_batches_total load_img random_permutation Hperm k it0 Hwf0 Hok0)
      as (bs & it & Htake & Hwf & Hok & Hsame & _).
    destruct Hsame as (_ & _ & Hci & _).
    destruct (LoaderFacts.next_positions random_permutation Hperm it Hok) as (Hidx & _).
    eexists bs, it, _, _. split; [exact Htake|].
    split; [exact (LoaderFacts.next_total load_img random_permutation Hperm it Hwf Hok)|].
    split; [exact Hnum|].
    pose proof (BatchFacts.batch_of_labels load_img it _ Hwf Hidx) as Hrows.
    eapply Forall2_Forall_r; [exact Hrows|].
    apply Forall_forall. intros j _ row (Hlen & c & _ & Harg & Hc).
    rewrite Hci, Hsize, <- Hnum in Hlen, Hc. eauto.
  - intros c j Hj. apply CLASS_NAMES_NoDup in Hnd.
    destruct (LoaderFacts.make_class_indices_NoDup _ Hnd) as [_ Hidx].
    split; apply (Hidx c j Hj).
Qed.

Lemma label_batches_one_hot_witness :
  ∃ bs it b it',
    Loader.take_batches sample_load_img sample_permutation 1 (val_data_gen sample_fs)
      = Ok (bs, it) ∧
    Loader.next sample_load_img sample_permutation it = Ok (b, it') ∧
    Loader.num_classes (val_data_gen sample_fs) = length (CLASS_NAMES (sample_fs data_dir)) ∧
    Forall (λ row, length row = Loader.num_classes (val_data_gen sample_fs) ∧
                   ∃ c, argmax row = Ok c ∧ c < Loader.num_classes (val_data_gen sample_fs))
           (label_batch b).
Proof.
  refine (proj1 (label_batches_one_hot sample_fs sample_load_img sample_permutation _ _)
            _ _ 1).
  - intros s n. apply reverse_Permutation.
  - refine (bool_decide_unpack _ _). vm_compute. exact I.
  - right. reflexivity.
Defined.

(** ** The training driver and its observer *)

(** *** The float64 quotient of the sample count and the batch size *)

Lemma Qceiling_unique (x : Q) (k : Z) :
  (inject_Z (k - 1) < x)%Q → (x <= inject_Z k)%Q → Qceiling x = k.
Proof.
  intros Hlo Hhi.
  assert (H1 : (Qceiling x <= k)%Z).
  { rewrite <- (Qceiling_Z k). by apply Qceiling_resp_le. }
  assert (H2 : (k - 1 < Qceiling x)%Z).
  { rewrite Zlt_Qlt. pose proof (Qle_ceiling x). lra. }
  lia.
Qed.

Lemma round_half_even_lower (x : Q) : (x - (1 # 2) <= inject_Z (round_half_even x))%Q.
Proof.
  unfold round_half_even.
  pose proof (Qfloor_le x) as Hf. pose proof (Qlt_floor x) as Hc.
  rewrite inject_Z_plus in Hc.
  destruct (Qcompare_spec (x - inject_Z (Qfloor x)) (1 # 2)) as [He | Hl | Hg].
  - destruct (Z.even (Qfloor x)); [|rewrite inject_Z_plus]; lra.
  - lra.
  - rewrite inject_Z_plus. lra.
Qed.

Lemma round_half_even_le (x : Q) (m : Z) :
  (x <= inject_Z m)%Q → (round_half_even x <= m)%Z.
Proof.
  intros Hm. unfold round_half_even.
  pose proof (Qfloor_le x) as Hf.
  assert (Hfm : (Qfloor x <= m)%Z) by (rewrite Zle_Qle; lra).
  destruct (Qcompare_spec (x - inject_Z (Qfloor x)) (1 # 2)) as [He | Hl | Hg].
  - assert ((Qfloor x < m)%Z) by (rewrite Zlt_Qlt; lra).
    destruct (Z.even (Qfloor x)); lia.
  - done.
  - assert ((Qfloor x < m)%Z) by (rewrite Zlt_Qlt; lra). lia.
Qed.

Lemma Qpower2_pos (e : Z) : (0 < 2 ^ e)%Q.
Proof. by apply Qpower_0_lt. Qed.

Lemma Qpower2_inject (n : Z) : (0 <= n)%Z → (inject_Z (2 ^ n) == 2 ^ n)%Q.
Proof. intros Hn. by rewrite Zpower_Qpower. Qed.

Lemma Qpower2_add (n m : Z) : (2 ^ (n + m) == 2 ^ n * 2 ^ m)%Q.
Proof. by apply Qpower_plus. Qed.

Lemma binary_exponent_le (a b : Z) :
  (0 < a)%Z → (0 < b)%Z → (2 ^ binary_exponent a b * inject_Z b <= inject_Z a)%Q.
Proof.
  intros Ha Hb. unfold binary_exponent.
  assert (HbQ : (0 < inject_Z b)%Q) by (change 0%Q with (inject_Z 0); by rewrite <- Zlt_Qlt).
  destruct (Qle_bool _ _) eqn:Htest.
  - apply Qle_bool_iff in Htest.
    apply (Qmult_le_compat_r _ _ (inject_Z b)) in Htest; [|lra].
    assert (Hq : (inject_Z a / inject_Z b * inject_Z b == inject_Z a)%Q).
    { field. lra. }
    by rewrite Hq in Htest.
  - destruct (Z.log2_spec a Ha) as [Hla _]. destruct (Z.log2_spec b Hb) as [_ Hlb].
    pose proof (Z.log2_nonneg a). pose proof (Z.log2_nonneg b).
    rewrite Zle_Qle, Qpower2_inject in Hla by lia.
    apply Z.lt_le_incl in Hlb.
    rewrite Zle_Qle, Qpower2_inject in Hlb by lia.
    replace (Z.log2 a) with ((Z.log2 a - Z.log2 b - 1) + Z.succ (Z.log2 b))%Z in Hla at 1 by lia.
    rewrite Qpower2_add in Hla.
    pose proof (Qpower2_pos (Z.log2 a - Z.log2 b - 1)) as Hp.
    apply (Qmult_le_l _ _ _ Hp) in Hlb. lra.
Qed.

Lemma binary_exponent_upper (a b : Z) (n : Z) :
  (0 < a < 2 ^ n)%Z → (0 < b)%Z → (0 <= n)%Z → (binary_exponent a b < n)%Z.
Proof.
  intros [Ha Han] Hb Hn. unfold binary_exponent.
  pose proof (Z.log2_nonneg b).
  assert (Z.log2 a < n)%Z by (by apply Z.log2_lt_pow2).
  destruct (Qle_bool _ _); lia.
Qed.

Lemma ceiling_div_bounds (a b : Z) :
  (0 < b)%Z →
  ((((a + b - 1) / b - 1) * b < a)%Z ∧ (a <= (a + b - 1) / b * b)%Z).
Proof.
  intros Hb.
  pose proof (Z.div_mod (a + b - 1) b ltac:(lia)) as Hdm.
  pose proof (Z.mod_pos_bound (a + b - 1) b Hb) as Hr.
  set (k := ((a + b - 1) / b)%Z) in *. lia.
Qed.

Lemma float64_quotient_ceiling (a b : Z) :
  (0 < a < 2 ^ 53)%Z → (0 < b < 2 ^ 53)%Z →
  Qceiling (float64_quotient a b) = ((a + b - 1) / b)%Z.
Proof.
  intros [Ha Ha53] [Hb Hb53].
  destruct (ceiling_div_bounds a b Hb) as [Hk1 Hk2].
  set (k := ((a + b - 1) / b)%Z) in *.
  assert (HbQ : (0 < inject_Z b)%Q) by (change 0%Q with (inject_Z 0); by rewrite <- Zlt_Qlt).
  unfold float64_quotient.
  set (q := (inject_Z a / inject_Z b)%Q).
  set (e := Z.max (binary_exponent a b) (-1022)).
  set (u := (2 ^ (e - 52))%Q).
  assert (Hqb : (q * inject_Z b == inject_Z a)%Q) by (unfold q; field; lra).
  assert (Hu : (0 < u)%Q) by apply Qpower2_pos.
  assert (He : (e <= 52)%Z).
  { pose proof (binary_exponent_upper a b 53 (conj Ha Ha53) Hb ltac:(lia)). lia. }
  assert (Hquu : (q / u * u == q)%Q) by (field; lra).
  (* the spacing of the grid, against the divisor *)
  assert (Hub : (u * inject_Z b < 2)%Q).
  { assert (H2eb : (2 ^ e * inject_Z b < 9007199254740992)%Q).
    { destruct (Z.max_spec (binary_exponent a b) (-1022)) as [[_ Hmax] | [_ Hmax]];
        fold e in Hmax; rewrite Hmax.
      - assert (Hp : (2 ^ (-1022) <= 2 ^ 0)%Q) by (by apply Qpower_le_compat_l).
        change (2 ^ 0)%Q with 1%Q in Hp.
        apply (Qmult_le_compat_r _ _ (inject_Z b)) in Hp; [|lra].
        assert (Hb' : (inject_Z b < 9007199254740992)%Q).
        { change 9007199254740992%Q with (inject_Z (2 ^ 53)). by rewrite <- Zlt_Qlt. }
        lra.
      - pose proof (binary_exponent_le a b Ha Hb) as Hle.
        assert (Ha' : (inject_Z a < 9007199254740992)%Q).
        { change 9007199254740992%Q with (inject_Z (2 ^ 53)). by rewrite <- Zlt_Qlt. }
        lra. }
    unfold u. replace (e - 52)%Z with (e + -52)%Z by lia.
    rewrite Qpower2_add.
    assert (H52 : (2 ^ (-52) == 1 # 4503599627370496)%Q) by reflexivity.
    rewrite H52. lra. }
  apply Qceiling_unique.
  - (* rounding does not reach down to [k - 1] *)
    pose proof (round_half_even_lower (q / u)) as Hlo.
    apply (Qmult_le_compat_r _ _ u) in Hlo; [|lra].
    assert (Hexp : ((q / u - (1 # 2)) * u == q - u * (1 # 2))%Q) by (field; lra).
    rewrite Hexp in Hlo.
    assert (Hk1' : (inject_Z (k - 1) * inject_Z b + 1 <= inject_Z a)%Q).
    { rewrite <- inject_Z_mult. change 1%Q with (inject_Z 1).
      rewrite <- inject_Z_plus, <- Zle_Qle. lia. }
    assert (Hgap : (inject_Z (k - 1) < q - u * (1 # 2))%Q).
    { apply (Qmult_lt_r _ _ (inject_Z b) HbQ).
      assert (Hexp2 : ((q - u * (1 # 2)) * inject_Z b
                       == q * inject_Z b - u * inject_Z b * (1 # 2))%Q) by ring.
      rewrite Hexp2. lra. }
    lra.
  - (* [k] is on the grid, so rounding does not pass it *)
    assert (Hgrid : (inject_Z (k * 2 ^ (52 - e)) * u == inject_Z k)%Q).
    { rewrite inject_Z_mult, Qpower2_inject by lia. unfold u.
      rewrite <- Qmult_assoc, <- Qpower2_add.
      replace (52 - e + (e - 52))%Z with 0%Z by lia.
      change (2 ^ 0)%Q with 1%Q. ring. }
    assert (Hqk : (q <= inject_Z k)%Q).
    { apply (Qmult_le_r _ _ (inject_Z b) HbQ).
      rewrite Hqb, <- inject_Z_mult, <- Zle_Qle. exact Hk2. }
    assert (Hle : (round_half_even (q / u) <= k * 2 ^ (52 - e))%Z).
    { apply round_half_even_le.
      apply (Qmult_le_r _ _ u Hu). rewrite Hquu, Hgrid. exact Hqk. }
    rewrite Zle_Qle in Hle.
    apply (Qmult_le_compat_r _ _ u) in Hle; [|lra].
    by rewrite Hgrid in Hle.
Qed.

(** Below [2^53] the division does not raise. *)
Lemma true_divide_Ok (a b : Z) :
  (0 < a < 2 ^ 53)%Z → (0 < b < 2 ^ 53)%Z →
  true_divide a b = Ok (float64_quotient a b).
Proof.
  intros Ha Hb. unfold true_divide.
  rewrite decide_False by lia. cbv zeta.
  destruct (Qle_bool _ _) eqn:Htest; [exfalso | done].
  apply Qle_bool_iff in Htest.
  pose proof (float64_quotient_ceiling a b Ha Hb) as Hk.
  pose proof (Qle_ceiling (float64_quotient a b)) as Hle. rewrite Hk in Hle.
  destruct (ceiling_div_bounds a b ltac:(lia)) as [Hk1 _].
  set (k := ((a + b - 1) / b)%Z) in *.
  assert (Hka : (k < 2 ^ 53)%Z) by nia.
  rewrite Zlt_Qlt, Qpower2_inject in Hka by lia.
  assert (Hp : (2 ^ 53 <= 2 ^ 1024)%Q) by (by apply Qpower_le_compat_l).
  eapply Qlt_irrefl, Qlt_le_trans; [exact Hka|].
  eapply Qle_trans; [exact Hp|]. by eapply Qle_trans.
Qed.

(** The step count as a natural number, for sample counts and batch
    sizes below [2^53]. *)
Lemma steps_per_epoch_of_len (n_samples n_batch : nat) :
  0 < n_samples → 0 < n_batch →
  (Z.of_nat n_samples < 2 ^ 53)%Z → (Z.of_nat n_batch < 2 ^ 53)%Z →
  Z.to_nat (steps_per_epoch_of n_samples n_batch) = (n_samples + n_batch - 1) / n_batch.
Proof.
  intros Hn Hb Hn53 Hb53. unfold steps_per_epoch_of, np_ceil.
  rewrite float64_quotient_ceiling by lia.
  rewrite <- (Nat2Z.id ((n_samples + n_batch - 1) / n_batch)).
  f_equal. rewrite Nat2Z.inj_div, Nat2Z.inj_sub, Nat2Z.inj_add by lia. done.
Qed.

(** At [2^53 + 1] samples in batches of one, the quotient is rounded to
    [2^53]. *)
Lemma steps_per_epoch_of_rounded (n_samples : nat) :
  Z.of_nat n_samples = (2 ^ 53 + 1)%Z → steps_per_epoch_of n_samples 1 = (2 ^ 53)%Z.
Proof.
  intros Hn. unfold steps_per_epoch_of. rewrite Hn. vm_compute. reflexivity.
Qed.

(** C7, as the claim puts it, fails beyond the precision of float64: with
    [2^53 + 1] training samples in batches of one, the quotient
    [samples/batch_size] is rounded to [2^53] before [np.ceil] sees it, so
    the step count is one less than the ceiling of the quotient. *)
Lemma steps_per_epoch_rounded_quotient :
  (0 < Z.to_nat (2 ^ 53 + 1)) ∧
  (Z.of_nat (Z.to_nat (2 ^ 53 + 1)) = 2 ^ 53 + 1)%Z ∧
  steps_per_epoch_cell (Z.to_nat (2 ^ 53 + 1)) 1 = Ok (2 ^ 53)%Z ∧
  steps_per_epoch_of (Z.to_nat (2 ^ 53 + 1)) 1 = (2 ^ 53)%Z ∧
  ¬ (Z.of_nat (Z.to_nat (2 ^ 53 + 1))
     ≤ steps_per_epoch_of (Z.to_nat (2 ^ 53 + 1)) 1 * Z.of_nat 1)%Z.
Proof.
  assert (Hn : (Z.of_nat (Z.to_nat (2 ^ 53 + 1)) = 2 ^ 53 + 1)%Z).
  { apply Z2Nat.id. lia. }
  revert Hn. generalize (Z.to_nat (2 ^ 53 + 1)). intros n Hn.
  pose proof (steps_per_epoch_of_rounded n Hn) as Hsteps.
  split; [lia|]. split; [exact Hn|]. split; [|split; [exact Hsteps|]].
  - unfold steps_per_epoch_cell. rewrite Hn. vm_compute. reflexivity.
  - rewrite Hsteps, Hn. lia.
Qed.

(** C7: for a positive number of training samples and a positive batch
    size, both below [2^53], the division does not raise and the step
    count handed to the driver is the ceiling of their quotient: the least
    [k] with [samples <= k * batch_size], which is also
    [(samples + batch_size - 1) / batch_size] in integer division. *)
Theorem steps_per_epoch_is_ceiling (n_samples n_batch : nat) :
  0 < n_samples → 0 < n_batch →
  (Z.of_nat n_samples < 2 ^ 53)%Z → (Z.of_nat n_batch < 2 ^ 53)%Z →
  steps_per_epoch_cell n_samples n_batch = Ok (steps_per_epoch_of n_samples n_batch)
  ∧ ((steps_per_epoch_of n_samples n_batch - 1) * Z.of_nat n_batch < Z.of_nat n_samples
     ∧ Z.of_nat n_samples ≤ steps_per_epoch_of n_samples n_batch * Z.of_nat n_batch)%Z
  ∧ steps_per_epoch_of n_samples n_batch = Z.of_nat ((n_samples + n_batch - 1) / n_batch).
Proof.
  intros Hn Hb Hn53 Hb53.
  split.
  { unfold steps_per_epoch_cell. rewrite true_divide_Ok by lia. reflexivity. }
  unfold steps_per_epoch_of, np_ceil.
  rewrite float64_quotient_ceiling by lia.
  split; [apply ceiling_div_bounds; lia|].
  rewrite Nat2Z.inj_div, Nat2Z.inj_sub, Nat2Z.inj_add by lia. done.
Qed.

Lemma steps_per_epoch_is_ceiling_witness :
  steps_per_epoch_cell 4000 32 = Ok (steps_per_epoch_of 4000 32)
  ∧ ((steps_per_epoch_of 4000 32 - 1) * Z.of_nat 32 < Z.of_nat 4000
     ∧ Z.of_nat 4000 ≤ steps_per_epoch_of 4000 32 * Z.of_nat 32)%Z
  ∧ steps_per_epoch_of 4000 32 = Z.of_nat ((4000 + 32 - 1) / 32).
Proof. apply (steps_per_epoch_is_ceiling 4000 32); lia. Defined.

Module DriverFacts.
Import Driver.

Lemma result_after_reset (v w : Q) :
  ¬ (w == 0)%Q → (result (update_state Mean_reset v w) == v)%Q.
Proof.
  intros Hw. unfold result, update_state, Mean_reset; simpl.
  field. intros H. apply Hw. rewrite <- H. ring.
Qed.

Lemma weight_nonzero (b : Batch) :
  0 < shape0 b → ¬ (inject_Z (Z.of_nat (shape0 b)) == 0)%Q.
Proof. intros Hb. unfold Qeq; simpl. lia. Qed.

Lemma Forall2_Qeq_refl (l : list Q) : Forall2 Qeq l l.
Proof. induction l; constructor; [reflexivity | done]. Qed.

Lemma Forall2_Qeq_trans (l1 l2 l3 : list Q) :
  Forall2 Qeq l1 l2 → Forall2 Qeq l2 l3 → Forall2 Qeq l1 l3.
Proof.
  intros H. revert l3. induction H as [|x y l1 l2 Hxy _ IH]; intros l3 H23.
  - by inversion H23.
  - inversion H23 as [|? z ? l3' Hyz H']; subst.
    constructor; [by rewrite Hxy | by apply IH].
Qed.

(** Histories that grow one step at a time grow by the whole run. *)
Lemma history_extend (h0 h1 h2 : list Q) (v r : Q) (vs : list Q) :
  h1 = h0 ++ [r] → (r == v)%Q → Forall2 Qeq h2 (h1 ++ vs) →
  Forall2 Qeq h2 (h0 ++ v :: vs).
Proof.
  intros -> Hr H. eapply Forall2_Qeq_trans; [exact H|].
  rewrite <- app_assoc. simpl.
  apply Forall2_app; [apply Forall2_Qeq_refl|].
  constructor; [exact Hr | apply Forall2_Qeq_refl].
Qed.

Lemma logs_get_Ok (logs : gmap string Q) (key : string) (v : Q) :
  logs !! key = Some v → logs_get logs key = Ok v.
Proof. intros H. unfold logs_get. by rewrite H. Qed.

(** One call of the observer: both histories grow by the logged value,
    and the metrics of the model are reset. *)
Lemma on_train_batch_end_spec {W : Type} (self : CollectBatchStats) (m : Model W)
    (i : nat) (logs : gmap string Q) (l a : Q) :
  logs !! "loss" = Some l → logs !! "acc" = Some a →
  on_train_batch_end self m i logs
  = Ok ({| batch_losses := batch_losses self ++ [l];
           batch_acc := batch_acc self ++ [a] |}, reset_metrics m).
Proof.
  intros Hl Ha. unfold on_train_batch_end.
  rewrite (logs_get_Ok _ _ _ Hl). simpl.
  rewrite (logs_get_Ok _ _ _ Ha). simpl. done.
Qed.

Lemma make_logs_lookup {W : Type} (m : Model W) :
  make_logs m !! "loss" = Some (result (loss_metric m)) ∧
  make_logs m !! "acc" = Some (result (acc_metric m)).
Proof.
  unfold make_logs. split.
  - apply lookup_insert_eq.
  - rewrite lookup_insert_ne by done. apply lookup_insert_eq.
Qed.

Section Runs.
Context {W St : Type}.
Variable train_on_batch : W → W → Batch → W * W * Q * Q.
Variable next_batch : St → Result (Batch * St).
Variable validate : W → W → Mean * Mean.

Local Abbreviation run_steps :=
  (run_steps train_on_batch next_batch (@on_train_batch_end W)).
Local Abbreviation fit_from :=
  (fit_from train_on_batch next_batch validate (@on_train_batch_end W)).

(** The trainable flag never changes, and a frozen extractor keeps its
    weights through any number of steps. *)
Lemma run_steps_frame (steps step : nat) (r r' : Run) :
  run_steps steps step r = Ok r' →
  trainable (model r') = trainable (model r) ∧
  (trainable (model r) = false → extractor (model r') = extractor (model r)).
Proof.
  revert step r. induction steps as [|steps IH]; intros step r; simpl.
  - intros [= <-]. done.
  - intros H. apply bind_Ok in H as ([b st'] & _ & H).
    unfold train_step in H.
    destruct (train_on_batch _ _ b) as [[[e' h'] l] a].
    apply bind_Ok in H as ([obs' m2] & Hcb & H).
    unfold on_train_batch_end in Hcb.
    apply bind_Ok in Hcb as (l' & _ & Hcb).
    apply bind_Ok in Hcb as (a' & _ & [= <- <-]).
    apply IH in H as [Ht He]. simpl in Ht, He.
    split; [exact Ht|].
    intros Hfrozen. rewrite He by exact Hfrozen. by rewrite Hfrozen.
Qed.

Lemma fit_from_frame (epochs steps : nat) (r r' : Run) :
  fit_from epochs steps r = Ok r' →
  trainable (model r') = trainable (model r) ∧
  (trainable (model r) = false → extractor (model r') = extractor (model r)).
Proof.
  revert r. induction epochs as [|epochs IH]; intros r; simpl.
  - intros [= <-]. done.
  - intros H. apply bind_Ok in H as (r1 & Hsteps & H).
    apply run_steps_frame in Hsteps as [Ht1 He1]. simpl in Ht1, He1.
    apply IH in H as [Ht He].
    unfold run_validation in Ht, He.
    destruct (validate _ _) as [vl va]. simpl in Ht, He.
    split; [congruence|].
    intros Hfrozen. rewrite He by congruence. by apply He1.
Qed.

Hypothesis next_batch_yields : ∀ st, ∃ b st', next_batch st = Ok (b, st') ∧ 0 < shape0 b.

(** Started with the metrics reset, a sequence of steps succeeds, and the
    observer records, step by step, the loss and the accuracy of the
    batch of that step. *)
Lemma run_steps_records (steps step : nat) (r : Run) :
  loss_metric (model r) = Mean_reset → acc_metric (model r) = Mean_reset →
  ∃ r' vs,
    run_steps steps step r = Ok r' ∧
    seen r' = seen r ++ vs ∧ length vs = steps ∧
    Forall2 Qeq (batch_losses (observer r')) (batch_losses (observer r) ++ vs.*1) ∧
    Forall2 Qeq (batch_acc (observer r')) (batch_acc (observer r) ++ vs.*2).
Proof.
  revert step r. induction steps as [|steps IH]; intros step r Hl Ha; simpl.
  - exists r, []. simpl. rewrite !app_nil_r.
    split; [done|]. split; [done|]. split; [done|].
    split; apply Forall2_Qeq_refl.
  - destruct (next_batch_yields (source r)) as (b & st' & -> & Hb). simpl.
    unfold train_step.
    destruct (train_on_batch _ _ b) as [[[e' h'] l] a].
    set (m1 := {| extractor := _; trainable := _; head := h';
                  loss_metric := _; acc_metric := _ |}).
    destruct (make_logs_lookup m1) as [Hlog_l Hlog_a].
    rewrite (on_train_batch_end_spec _ m1 step _ _ _ Hlog_l Hlog_a). simpl.
    set (r1 := {| model := reset_metrics m1; observer := _; source := st';
                  seen := seen r ++ [(l, a)] |}).
    destruct (IH (S step) r1) as (r' & vs & Hrun & Hseen & Hlen & Hls & Has);
      [done | done |].
    exists r', ((l, a) :: vs). split; [exact Hrun|]. split; [|split; [|split]].
    + rewrite Hseen. simpl. by rewrite <- app_assoc.
    + simpl. by rewrite Hlen.
    + simpl. eapply history_extend; [reflexivity | | exact Hls].
      simpl. rewrite Hl. apply result_after_reset. by apply weight_nonzero.
    + simpl. eapply history_extend; [reflexivity | | exact Has].
      simpl. rewrite Ha. apply result_after_reset. by apply weight_nonzero.
Qed.

Lemma fit_from_records (epochs steps : nat) (r : Run) :
  ∃ r' vs,
    fit_from epochs steps r = Ok r' ∧
    seen r' = seen r ++ vs ∧ length vs = epochs * steps ∧
    Forall2 Qeq (batch_losses (observer r')) (batch_losses (observer r) ++ vs.*1) ∧
    Forall2 Qeq (batch_acc (observer r')) (batch_acc (observer r) ++ vs.*2).
Proof.
  revert r. induction epochs as [|epochs IH]; intros r; simpl.
  - exists r, []. simpl. rewrite !app_nil_r.
    split; [done|]. split; [done|]. split; [done|].
    split; apply Forall2_Qeq_refl.
  - set (r0 := {| model := reset_metrics (model r); observer := observer r;
                  source := source r; seen := seen r |}).
    destruct (run_steps_records steps 0 r0) as (r1 & vs1 & -> & Hseen1 & Hlen1 & Hl1 & Ha1);
      [done | done |].
    simpl.
    destruct (IH (run_validation validate r1)) as (r' & vs2 & Hfit & Hseen2 & Hlen2 & Hl2 & Ha2).
    assert (Hval : seen (run_validation validate r1) = seen r1 ∧
                   observer (run_validation validate r1) = observer r1).
    { unfold run_validation. by destruct (validate _ _). }
    destruct Hval as [Hvs Hvo]. rewrite Hvs in Hseen2. rewrite Hvo in Hl2, Ha2.
    exists r', (vs1 ++ vs2). split; [exact Hfit|]. split; [|split; [|split]].
    + rewrite Hseen2, Hseen1. simpl. by rewrite <- app_assoc.
    + rewrite length_app. lia.
    + rewrite fmap_app, app_assoc.
      eapply Forall2_Qeq_trans; [exact Hl2|].
      apply Forall2_app; [exact Hl1 | apply Forall2_Qeq_refl].
    + rewrite fmap_app, app_assoc.
      eapply Forall2_Qeq_trans; [exact Ha2|].
      apply Forall2_app; [exact Ha1 | apply Forall2_Qeq_refl].
Qed.

End Runs.
End DriverFacts.

(** C3: the observer appends to its two histories exactly the logged loss
    and accuracy and then resets the metrics of the model; and when the
    training sequence keeps yielding non-empty batches, the driver calls
    it once after each batch it processes, so that the histories grow, in
    order, by the loss and the accuracy of each single batch. *)
Theorem observer_records_each_batch {W St : Type}
    (train_on_batch : W → W → Batch → W * W * Q * Q)
    (next_batch : St → Result (Batch * St))
    (validate : W → W → Mean * Mean) :
  (∀ st, ∃ b st', next_batch st = Ok (b, st') ∧ 0 < shape0 b) →
  (∀ (self : CollectBatchStats) (m : Model W) (i : nat) (logs : gmap string Q) (l a : Q),
     logs !! "loss" = Some l → logs !! "acc" = Some a →
     on_train_batch_end self m i logs
     = Ok ({| batch_losses := batch_losses self ++ [l];
              batch_acc := batch_acc self ++ [a] |}, reset_metrics m)) ∧
  (∀ (m : Model W) (x : St) (epochs : nat) (steps : Z) (obs : CollectBatchStats),
     ∃ r, Driver.fit train_on_batch next_batch validate on_train_batch_end
            m x epochs steps obs = Ok r ∧
          length (Driver.seen r) = epochs * Z.to_nat steps ∧
          Forall2 Qeq (batch_losses (Driver.observer r))
                      (batch_losses obs ++ (Driver.seen r).*1) ∧
          Forall2 Qeq (batch_acc (Driver.observer r))
                      (batch_acc obs ++ (Driver.seen r).*2)).
Proof.
  intros Hnext. split.
  - intros self m i logs l a. apply DriverFacts.on_train_batch_end_spec.
  - intros m x epochs steps obs. unfold Driver.fit.
    destruct (DriverFacts.fit_from_records train_on_batch next_batch validate Hnext
                epochs (Z.to_nat steps)
                {| Driver.model := m; Driver.observer := obs;
                   Driver.source := x; Driver.seen := [] |})
      as (r & vs & Hfit & Hseen & Hlen & Hl & Ha).
    simpl in Hseen, Hl, Ha. subst vs.
    exists r. done.
Qed.

Lemma observer_records_each_batch_witness :
  ∃ r, Driver.fit sample_train_on_batch sample_source sample_validate on_train_batch_end
         sample_model 0 3 (steps_per_epoch_of 4 2) CollectBatchStats_init = Ok r ∧
       length (Driver.seen r) = 3 * Z.to_nat (steps_per_epoch_of 4 2) ∧
       Forall2 Qeq (batch_losses (Driver.observer r))
                   (batch_losses CollectBatchStats_init ++ (Driver.seen r).*1) ∧
       Forall2 Qeq (batch_acc (Driver.observer r))
                   (batch_acc CollectBatchStats_init ++ (Driver.seen r).*2).
Proof.
  refine (proj2 (observer_records_each_batch sample_train_on_batch sample_source
                   sample_validate _)
            sample_model 0 3 (steps_per_epoch_of 4 2) CollectBatchStats_init).
  intros st. exists sample_batch, (S st). split; [reflexivity | vm_compute; lia].
Defined.

(** Without the reset the logged values are running averages: on the
    sample set-up the second recorded loss is the mean of the first two
    batch losses, not the loss of the second batch. *)
Lemma record_without_reset_running_average :
  ∃ r, Driver.fit sample_train_on_batch sample_source sample_validate record_without_reset
         sample_model 0 1 2 CollectBatchStats_init = Ok r ∧
       (Driver.seen r).*1 = [(1 # 1)%Q; (1 # 2)%Q] ∧
       Forall2 Qeq (batch_losses (Driver.observer r)) [(1 # 1)%Q; (3 # 4)%Q].
Proof.
  eexists. split; [vm_compute; reflexivity|].
  split; [reflexivity|].
  repeat constructor.
Qed.

(** C9: a run of 0 epochs returns the model as it was given; and whatever
    the number of epochs, a run that starts with the extractor frozen
    ends with the extractor weights it started with, still frozen. *)
Theorem frozen_extractor_unchanged {W St : Type}
    (train_on_batch : W → W → Batch → W * W * Q * Q)
    (next_batch : St → Result (Batch * St))
    (validate : W → W → Mean * Mean) :
  (∀ (m : Model W) (x : St) (steps : Z) (obs : CollectBatchStats),
     Driver.fit train_on_batch next_batch validate on_train_batch_end m x 0 steps obs
     = Ok {| Driver.model := m; Driver.observer := obs;
             Driver.source := x; Driver.seen := [] |}) ∧
  (∀ (N : nat) (m : Model W) (x : St) (steps : Z) (obs : CollectBatchStats) r,
     trainable m = false →
     Driver.fit train_on_batch next_batch validate on_train_batch_end m x N steps obs
     = Ok r →
     extractor (Driver.model r) = extractor m ∧ trainable (Driver.model r) = false).
Proof.
  split.
  - intros m x steps obs. reflexivity.
  - intros N m x steps obs r Hfrozen Hfit. unfold Driver.fit in Hfit.
    apply DriverFacts.fit_from_frame in Hfit as [Ht He]. simpl in Ht, He.
    split; [by apply He | congruence].
Qed.

Lemma frozen_extractor_unchanged_witness :
  match Driver.fit sample_train_on_batch sample_source sample_validate on_train_batch_end
          (freeze sample_model) 0 3 2 CollectBatchStats_init with
  | Ok r => extractor (Driver.model r) = 7 ∧ trainable (Driver.model r) = false
            ∧ head (Driver.model r) = 6
  | Err _ => False
  end.
Proof.
  destruct (Driver.fit sample_train_on_batch sample_source sample_validate
              on_train_batch_end (freeze sample_model) 0 3 2 CollectBatchStats_init)
    as [r|e] eqn:Hfit.
  - destruct (proj2 (frozen_extractor_unchanged sample_train_on_batch sample_source
                       sample_validate)
                3 (freeze sample_model) 0 2%Z CollectBatchStats_init r eq_refl Hfit)
      as [He Ht].
    split; [exact He|]. split; [exact Ht|].
    vm_compute in Hfit. injection Hfit as <-. reflexivity.
  - vm_compute in Hfit. discriminate Hfit.
Defined.

(** ** The evaluation and report loop *)

Lemma mapM_exists {A B : Type} (f : A → Result B) (P : B → Prop) (l : list A) :
  Forall (λ a, ∃ b, f a = Ok b ∧ P b) l →
  ∃ k, mapM f l = Ok k ∧ length k = length l ∧ Forall P k.
Proof.
  induction 1 as [|a l (b & Hb & HP) _ (k & Hk & Hlen & HPk)]; simpl.
  - exists []. done.
  - exists (b :: k). rewrite Hb. simpl. rewrite Hk. simpl.
    split; [done|]. split; [by rewrite Hlen | by constructor].
Qed.

(** [model.predict] yields one output row per image, and only for a batch
    that holds an image. *)
Lemma model_predict_Ok (predict : Image → list Q) (images : list Image) :
  0 < length images → model_predict predict images = Ok (predict <$> images).
Proof. destruct images; simpl; [lia | done]. Qed.

Lemma model_predict_inv (predict : Image → list Q) (images : list Image)
    (rows : list (list Q)) :
  model_predict predict images = Ok rows →
  rows = predict <$> images ∧ 0 < length images.
Proof. destruct images; simpl; [done|]. intros [= <-]. split; [done | lia]. Qed.

Lemma model_predict_empty (predict : Image → list Q) :
  model_predict predict [] = Err ValueError.
Proof. reflexivity. Qed.

Module ReportFacts.
Section Report.
Context {St : Type}.
Variable next : St → Result (option (Batch * St)).
Variable predict : Image → list Q.
Variable class_names : list string.

Local Abbreviation draw_sample := (render_sample class_names).
Local Abbreviation draw_batch := (render_batch predict class_names).
Local Abbreviation loop := (eval_loop next predict class_names).

(** Whatever the true class, the title that is drawn is the name of the
    predicted class alone, and the colour tells whether the two agree. *)
Lemma render_sample_title (b : Batch) (predicted_id label_id : list nat)
    (predicted_label_batch : list string) (n : nat) (cell : Subplot) :
  draw_sample b predicted_id label_id predicted_label_batch n = Ok cell →
  ∃ p l pl,
    predicted_id !! n = Some p ∧ label_id !! n = Some l ∧
    predicted_label_batch !! n = Some pl ∧
    position cell = n + 1 ∧
    title_text cell = title pl ∧
    title_color cell = (if decide (p = l) then green else red).
Proof.
  unfold render_sample. intros H.
  apply bind_Ok in H as (_ & _ & H).
  apply bind_Ok in H as (img & _ & H).
  apply bind_Ok in H as (p & Hp & H).
  apply bind_Ok in H as (l & Hl & H).
  apply bind_Ok in H as (pl & Hpl & H).
  apply bind_Ok in H as (t & _ & [= <-]).
  apply getitem_Ok in Hp, Hl, Hpl.
  exists p, l, pl. done.
Qed.

Lemma render_sample_total (b : Batch) (predicted_id label_id : list nat)
    (predicted_label_batch : list string) (n : nat) :
  n < shape0 b → shape0 b ≤ 32 →
  length predicted_id = shape0 b → length label_id = shape0 b →
  length predicted_label_batch = shape0 b →
  Forall (λ l, l < length class_names) label_id →
  ∃ cell, draw_sample b predicted_id label_id predicted_label_batch n = Ok cell.
Proof.
  intros Hn H32 Hp Hl Hpl Hlid. unfold render_sample, subplot.
  rewrite decide_True by (simpl; lia). simpl.
  destruct (getitem_lt (image_batch b) n) as (img & -> & _); [exact Hn|]. simpl.
  destruct (getitem_lt predicted_id n) as (p & -> & _); [lia|]. simpl.
  destruct (getitem_lt label_id n) as (l & -> & Hln); [lia|]. simpl.
  destruct (getitem_lt predicted_label_batch n) as (pl & -> & _); [lia|]. simpl.
  destruct (decide (p = l)) as [Heq|Hne]; simpl; [eauto|].
  rewrite Forall_forall in Hlid.
  destruct (getitem_lt class_names l) as (tl & -> & _).
  { apply Hlid. by apply list_elem_of_lookup_2 in Hln. }
  simpl. eauto.
Qed.

(** A renderable batch is drawn without an exception, one sub-plot per
    sample. *)
Lemma render_batch_total (batch_count : nat) (b : Batch) :
  renderable predict class_names b →
  ∃ fig, draw_batch batch_count b = Ok fig ∧ length (subplots fig) = shape0 b.
Proof.
  intros (H32 & Hlabels & Hout & Hrows).
  unfold render_batch.
  assert (Hshape : shape0 b = length (image_batch b)) by done.
  rewrite model_predict_Ok by lia. simpl.
  destruct (mapM_exists argmax (λ i, i < length class_names) (predict <$> image_batch b))
    as (pid & -> & Hpid_len & Hpid).
  { apply Forall_fmap. eapply Forall_impl; [exact Hout|]. intros img [Hpos Hle].
    unfold compose. destruct (argmax_nonempty (predict img) Hpos) as (i & Hi & Hlt).
    exists i. split; [done | lia]. }
  rewrite length_fmap in Hpid_len. simpl.
  destruct (mapM_exists (getitem class_names) (λ _, True) pid)
    as (plb & -> & Hplb_len & _).
  { eapply Forall_impl; [exact Hpid|]. intros i Hi.
    destruct (getitem_lt class_names i Hi) as (c & Hc & _). eauto. }
  simpl.
  destruct (mapM_exists argmax (λ i, i < length class_names) (label_batch b))
    as (lid & -> & Hlid_len & Hlid).
  { eapply Forall_impl; [exact Hrows|]. intros row [Hpos Hle].
    destruct (argmax_nonempty row Hpos) as (i & Hi & Hlt).
    exists i. split; [done | lia]. }
  simpl.
  destruct (mapM_exists (draw_sample b pid lid plb) (λ _, True) (seq 0 (shape0 b)))
    as (cells & -> & Hcells_len & _).
  { apply Forall_forall. intros n Hn. apply elem_of_seq in Hn.
    destruct (render_sample_total b pid lid plb n) as [cell Hcell];
      [lia | lia | congruence | congruence | congruence | done |].
    eauto. }
  simpl. eexists. split; [reflexivity|]. simpl.
  by rewrite Hcells_len, length_seq.
Qed.

(** X2: what a figure shows for the sample at position [n]: the name of
    the class with the largest output, in green when that class is also
    the one with the largest label entry and in red otherwise; the name of
    the true class is no part of the title. *)
Lemma render_batch_cells (batch_count : nat) (b : Batch) (fig : Figure)
    (n : nat) (cell : Subplot) :
  draw_batch batch_count b = Ok fig → subplots fig !! n = Some cell →
  ∃ img row p l name,
    image_batch b !! n = Some img ∧ argmax (predict img) = Ok p ∧
    label_batch b !! n = Some row ∧ argmax row = Ok l ∧
    class_names !! p = Some name ∧
    position cell = n + 1 ∧
    title_text cell = title name ∧
    title_color cell = (if decide (p = l) then green else red).
Proof.
  unfold render_batch. intros H Hcell.
  apply bind_Ok in H as (rows & Hrows & H).
  apply model_predict_inv in Hrows as [-> _].
  apply bind_Ok in H as (pid & Hpid & H).
  apply bind_Ok in H as (plb & Hplb & H).
  apply bind_Ok in H as (lid & Hlid & H).
  apply bind_Ok in H as (cells & Hcells & [= <-]). simpl in Hcell.
  apply mapM_Ok_Forall2 in Hpid, Hplb, Hlid, Hcells.
  destruct (Forall2_lookup_r _ _ _ _ _ Hcells Hcell) as (n' & Hn' & Hrender).
  apply lookup_seq in Hn' as [-> _]. simpl in Hrender.
  apply render_sample_title in Hrender as (p & l & pl & Hp & Hl & Hpl & Hpos & Ht & Hc).
  destruct (Forall2_lookup_r _ _ _ _ _ Hpid Hp) as (out & Hout & Hargp).
  apply list_lookup_fmap_Some in Hout as (img & -> & Himg).
  destruct (Forall2_lookup_r _ _ _ _ _ Hlid Hl) as (row & Hrow & Hargl).
  destruct (Forall2_lookup_r _ _ _ _ _ Hplb Hpl) as (p' & Hp' & Hname).
  rewrite Hp in Hp'. injection Hp' as <-. apply getitem_Ok in Hname.
  exists img, row, p, l, pl. done.
Qed.

(** The loop draws the first two batches and breaks; it does not ask for
    a third one. *)
Lemma eval_loop_two (fuel : nat) (st st1 st2 : St) (b1 b2 : Batch) (fig1 fig2 : Figure) :
  next st = Ok (Some (b1, st1)) → next st1 = Ok (Some (b2, st2)) →
  draw_batch 1 b1 = Ok fig1 → draw_batch 2 b2 = Ok fig2 →
  loop (S (S fuel)) 2 st 0 [] = Ok (Some ([fig1; fig2], by_break)).
Proof.
  intros H1 H2 Hf1 Hf2. simpl.
  rewrite H1. simpl. rewrite Hf1. simpl.
  rewrite H2. simpl. rewrite Hf2. simpl. done.
Qed.

End Report.
End ReportFacts.

(** The cells of a figure are numbered as the samples of its batch, from
    1 on. *)
Lemma render_batch_positions (predict : Image → list Q) (class_names : list string)
    (batch_count : nat) (b : Batch) (fig : Figure) :
  render_batch predict class_names batch_count b = Ok fig →
  position <$> subplots fig = (λ n, n + 1) <$> seq 0 (shape0 b).
Proof.
  unfold render_batch. intros H.
  apply bind_Ok in H as (rows & _ & H).
  apply bind_Ok in H as (pid & _ & H).
  apply bind_Ok in H as (plb & _ & H).
  apply bind_Ok in H as (lid & _ & H).
  apply bind_Ok in H as (cells & Hcells & [= <-]). simpl.
  apply mapM_Ok_Forall2 in Hcells.
  induction Hcells as [|n cell l cells Hcell _ IH]; [done|].
  rewrite !fmap_cons, IH. f_equal.
  by apply ReportFacts.render_sample_title in Hcell as (_ & _ & _ & _ & _ & _ & Hpos & _).
Qed.

(** The only [ValueError] of the inner loop body is the one of
    [plt.subplot]. *)
Lemma render_sample_ValueError (class_names : list string) (b : Batch)
    (predicted_id label_id : list nat) (predicted_label_batch : list string) (n : nat) :
  render_sample class_names b predicted_id label_id predicted_label_batch n
  = Err ValueError ↔ subplot 8 4 (n + 1) = Err ValueError.
Proof.
  unfold render_sample, getitem.
  destruct (subplot 8 4 (n + 1)) as [[]|e]; simpl;
    [|split; intros [= ->]; reflexivity].
  split; [|done].
  destruct (image_batch b !! n); simpl; [|done].
  destruct (predicted_id !! n) as [p|]; simpl; [|done].
  destruct (label_id !! n) as [l|]; simpl; [|done].
  destruct (predicted_label_batch !! n); simpl; [|done].
  destruct (decide (p = l)); simpl; [done|].
  destruct (class_names !! l); simpl; done.
Qed.

(** C10: for every batch yielded by a loader configured with the batch
    size of the notebook, 32, the inner loop stays inside the 8 by 4 grid:
    for every [n] in [range(image_batch.shape[0])] the cell number [n + 1]
    lies between 1 and 32 and the loop body does not fail with the
    [ValueError] of [plt.subplot]; the cells of a figure that is drawn are
    numbered [1 .. shape[0]], all within the grid; and the figure is drawn
    whenever the batch is not empty and the output rows and label rows fit
    the list of class names. *)
Theorem subplot_index_in_grid (fs : FileSystem) (gen : ImageDataGenerator) (a : FlowArgs)
    (load_img : string → nat → nat → nat → nat → nat → Byte.byte)
    (random_permutation : Z → nat → list nat)
    (predict : Image → list Q) (class_names : list string)
    (it it' : Loader.DirectoryIterator) (k : nat) (bs : list Batch) (b : Batch) :
  batch_size a = BATCH_SIZE →
  Loader.take_batches load_img random_permutation k (Loader.flow_from_directory fs gen a)
    = Ok (bs, it) →
  Loader.next load_img random_permutation it = Ok (b, it') →
  (∀ predicted_id label_id predicted_label_batch n,
     n < shape0 b →
     1 ≤ n + 1 ≤ 32 ∧
     render_sample class_names b predicted_id label_id predicted_label_batch n
     ≠ Err ValueError) ∧
  (∀ batch_count fig,
     render_batch predict class_names batch_count b = Ok fig →
     position <$> subplots fig = (λ n, n + 1) <$> seq 0 (shape0 b) ∧
     Forall (λ cell, 1 ≤ position cell ≤ 32) (subplots fig)) ∧
  (0 < shape0 b →
   length (label_batch b) = shape0 b →
   Forall (λ img, 0 < length (predict img) ≤ length class_names) (image_batch b) →
   Forall (λ row, 0 < length row ≤ length class_names) (label_batch b) →
   ∀ batch_count, ∃ fig, render_batch predict class_names batch_count b = Ok fig).
Proof.
  intros Hbs Htake Hnext.
  apply LoaderRun.take_batches_same_loader in Htake as (_ & Ha & _).
  apply LoaderRun.next_shape_le in Hnext as [Hle _].
  rewrite Ha in Hle. simpl in Hle. rewrite Hbs in Hle. unfold BATCH_SIZE in Hle.
  split; [|split].
  - intros pid lid plb n Hn. split; [lia|].
    rewrite render_sample_ValueError. unfold subplot.
    rewrite decide_True; [done|]. simpl. lia.
  - intros batch_count fig Hfig.
    pose proof (render_batch_positions _ _ _ _ _ Hfig) as Hpos.
    split; [exact Hpos|].
    apply Forall_forall. intros cell Hcell.
    assert (Hin : position cell ∈ position <$> subplots fig).
    { apply list_elem_of_fmap. eauto. }
    rewrite Hpos in Hin. apply list_elem_of_fmap in Hin as (n & -> & Hn).
    apply elem_of_seq in Hn. lia.
  - intros Hpos Hlabels Hout Hrows batch_count.
    destruct (ReportFacts.render_batch_total predict class_names batch_count b)
      as (fig & Hfig & _); [|eauto].
    unfold renderable. split; [lia|]. done.
Qed.

Lemma subplot_index_in_grid_witness :
  (∀ predicted_id label_id predicted_label_batch n,
     n < shape0 small_val_second_batch →
     1 ≤ n + 1 ≤ 32 ∧
     render_sample sample_class_names small_val_second_batch
       predicted_id label_id predicted_label_batch n
     ≠ Err ValueError) ∧
  (∀ batch_count fig,
     render_batch sample_predict sample_class_names batch_count small_val_second_batch
     = Ok fig →
     position <$> subplots fig = (λ n, n + 1) <$> seq 0 (shape0 small_val_second_batch) ∧
     Forall (λ cell, 1 ≤ position cell ≤ 32) (subplots fig)) ∧
  (∀ batch_count, ∃ fig,
     render_batch sample_predict sample_class_names batch_count small_val_second_batch
     = Ok fig).
Proof.
  pose (it1 := Loader.advance sample_permutation (small_val_data_gen sample_fs)).
  destruct (subplot_index_in_grid sample_fs image_generator (small_val_args sample_fs)
              sample_load_img sample_permutation sample_predict sample_class_names
              it1 (Loader.advance sample_permutation it1) 1
              [Loader.batch_of sample_load_img (small_val_data_gen sample_fs) [0; 1]]
              small_val_second_batch)
    as (Hcalls & Hcells & Hdrawn).
  - reflexivity.
  - vm_compute. reflexivity.
  - vm_compute. reflexivity.
  - split; [exact Hcalls|]. split; [exact Hcells|].
    apply Hdrawn.
    + vm_compute. lia.
    + reflexivity.
    + vm_compute. repeat constructor.
    + vm_compute. repeat constructor.
Defined.

(** C1, at a sample the model gets wrong: the true class is "01_Tumor",
    the predicted class "02_Stroma"; the title is red and reads
    "02_Stroma" only, the name of the true class is left out. *)
Theorem annotation_omits_true_class :
  sample_class_names = ["01_Tumor"; "02_Stroma"] ∧
  render_batch sample_predict sample_class_names 1 batch_of_class_0
  = Ok {| subplots :=
            [{| position := 1; shown := sample_image;
                title_text := "02_Stroma"; title_color := red |}];
          suptitle :=
            Some "Model predictions (green: correct, red: incorrect) for batch 1" |}.
Proof. split; vm_compute; reflexivity. Qed.

(** C2: when the sequence yields two batches that can be drawn, the loop
    with its limit of 2 draws exactly these two, one figure each, and ends
    by its [break]; whether a third batch exists is never asked. *)
Theorem report_renders_two_grids {St : Type} (next : St → Result (option (Batch * St)))
    (predict : Image → list Q) (class_names : list string)
    (st st1 st2 : St) (b1 b2 : Batch) (fuel : nat) :
  next st = Ok (Some (b1, st1)) → next st1 = Ok (Some (b2, st2)) →
  renderable predict class_names b1 → renderable predict class_names b2 →
  2 ≤ fuel →
  ∃ fig1 fig2,
    report next predict class_names fuel st = Ok (Some ([fig1; fig2], by_break)) ∧
    render_batch predict class_names 1 b1 = Ok fig1 ∧
    render_batch predict class_names 2 b2 = Ok fig2 ∧
    length (subplots fig1) = shape0 b1 ∧ length (subplots fig2) = shape0 b2.
Proof.
  intros H1 H2 Hb1 Hb2 Hfuel.
  destruct (ReportFacts.render_batch_total predict class_names 1 b1 Hb1) as (fig1 & Hf1 & Hn1).
  destruct (ReportFacts.render_batch_total predict class_names 2 b2 Hb2) as (fig2 & Hf2 & Hn2).
  exists fig1, fig2.
  destruct fuel as [|[|fuel]]; [lia | lia |].
  split; [|done].
  unfold report, default_limit.
  by apply (ReportFacts.eval_loop_two next predict class_names fuel st st1 st2 b1 b2).
Qed.

Lemma report_renders_two_grids_witness :
  ∃ fig1 fig2,
    report list_next sample_predict sample_class_names 5 three_batches
      = Ok (Some ([fig1; fig2], by_break)) ∧
    render_batch sample_predict sample_class_names 1 batch_of_class_0 = Ok fig1 ∧
    render_batch sample_predict sample_class_names 2 batch_of_class_1 = Ok fig2 ∧
    length (subplots fig1) = shape0 batch_of_class_0 ∧
    length (subplots fig2) = shape0 batch_of_class_1.
Proof.
  apply (report_renders_two_grids list_next sample_predict sample_class_names
           three_batches [batch_of_class_1; batch_of_class_0] [batch_of_class_0]
           batch_of_class_0 batch_of_class_1 5).
  - reflexivity.
  - reflexivity.
  - vm_compute. repeat split; try lia; repeat constructor.
  - vm_compute. repeat split; try lia; repeat constructor.
  - lia.
Defined.

(** ** The loop on the validation loader of the notebook *)

#[local] Instance by_index_transitive : Transitive by_index.
Proof. intros x y z. unfold by_index. lia. Qed.

#[local] Instance by_index_total : Total by_index.
Proof. intros x y. unfold by_index. lia. Qed.

Lemma zip_seq_sorted (cls : list string) (k : nat) :
  StronglySorted by_index (zip cls (seq k (length cls))).
Proof.
  revert k. induction cls as [|c cls IH]; intros k; simpl; constructor.
  - apply IH.
  - apply Forall_forall. intros [c' j] Hin.
    apply elem_of_lookup_zip_with_1 in Hin as (i & x & y & [= -> ->] & _ & Hy).
    apply lookup_seq in Hy as [-> _]. unfold by_index. simpl. lia.
Qed.

Lemma class_indices_lookup (cls : list string) (c : string) (j : nat) :
  NoDup cls →
  Loader.make_class_indices cls !! c = Some j ↔ cls !! j = Some c.
Proof.
  intros Hnd.
  destruct (LoaderFacts.foldl_insert_zip cls 0 ∅ Hnd) as (_ & Hin & Hout).
  { intros c' _. apply lookup_empty. }
  split.
  - intros Hc. destruct (decide (c ∈ cls)) as [Hmem | Hmem].
    + apply list_elem_of_lookup in Hmem as [j' Hj'].
      pose proof (Hin c j' Hj') as Hc'. unfold Loader.make_class_indices in Hc.
      rewrite Hc in Hc'. injection Hc' as ->. exact Hj'.
    + unfold Loader.make_class_indices in Hc.
      rewrite (Hout c Hmem), lookup_empty in Hc. discriminate.
  - intros Hj. apply (Hin c j Hj).
Qed.

(** X1: with pairwise distinct classes, the names the loop indexes by
    class index are the capitalised class names, in the order of the class
    list. *)
Lemma class_names_of_NoDup (fs : FileSystem) (gen : ImageDataGenerator) (a : FlowArgs) :
  NoDup (classes a) →
  class_names_of (Loader.flow_from_directory fs gen a) = title <$> classes a.
Proof.
  intros Hnd. unfold class_names_of. simpl.
  set (cls := classes a). set (L := zip cls (seq 0 (length cls))).
  assert (HL1 : L.*1 = cls).
  { apply fst_zip. by rewrite length_seq. }
  assert (HinL : ∀ c j, (c, j) ∈ L ↔ cls !! j = Some c).
  { intros c j. unfold L. rewrite elem_of_lookup_zip_with. split.
    - intros (i & x & y & [= -> ->] & Hx & Hy).
      apply lookup_seq in Hy as [-> _]. exact Hx.
    - intros Hj. exists j, c, j. split; [done|]. split; [done|].
      apply lookup_seq. split; [done|]. by apply lookup_lt_Some in Hj. }
  assert (Hperm : map_to_list (Loader.make_class_indices cls) ≡ₚ L).
  { apply NoDup_Permutation.
    - apply NoDup_map_to_list.
    - apply (NoDup_fmap_1 fst). by rewrite HL1.
    - intros [c j]. rewrite elem_of_map_to_list, HinL.
      by apply class_indices_lookup. }
  assert (Hsorted : merge_sort by_index (map_to_list (Loader.make_class_indices cls)) = L).
  { apply (StronglySorted_unique_strong by_index).
    - intros [c1 j1] [c2 j2] H1 H2 H12 H21. unfold by_index in H12, H21. simpl in *.
      assert (j1 = j2) as -> by lia.
      rewrite merge_sort_Permutation, Hperm in H1.
      apply HinL in H1, H2. congruence.
    - apply Sorted_StronglySorted; [apply _|]. apply Sorted_merge_sort. apply _.
    - apply zip_seq_sorted.
    - by rewrite merge_sort_Permutation. }
  rewrite Hsorted. rewrite <- HL1. by rewrite <- list_fmap_compose.
Qed.

Lemma class_names_of_length (it : Loader.DirectoryIterator) :
  length (class_names_of it) = size (Loader.class_indices it).
Proof.
  unfold class_names_of.
  rewrite length_fmap, merge_sort_Permutation. apply length_map_to_list.
Qed.

(** Every batch of a well-formed loader that is not empty can be drawn,
    when the model has one output per class and there is at least one
    class. *)
Lemma batch_of_renderable
    (load_img : string → nat → nat → nat → nat → nat → Byte.byte)
    (predict : Image → list Q) (it : Loader.DirectoryIterator) (idx : list nat) :
  Loader.well_formed it → Forall (λ j, j < Loader.samples it) idx →
  0 < length idx ≤ 32 →
  (∀ img, length (predict img) = size (Loader.class_indices it)) →
  0 < size (Loader.class_indices it) →
  renderable predict (class_names_of it) (Loader.batch_of load_img it idx).
Proof.
  intros Hwf Hidx Hlen Hpredict Hpos. unfold renderable, shape0. simpl.
  rewrite !length_fmap, class_names_of_length.
  split; [done|]. split; [done|]. split.
  - apply Forall_fmap, Forall_forall. intros j _. unfold compose.
    rewrite Hpredict. lia.
  - pose proof (BatchFacts.batch_of_labels load_img it idx Hwf Hidx) as Hrows.
    eapply Forall2_Forall_r; [exact Hrows|].
    apply Forall_forall. intros j _ row (Hrow & _). lia.
Qed.

(** X8: cell 23 as a whole: on the validation loader, when the validation
    subset holds at least one file and the model has one output per class
    of the training loader, the loop draws two figures and ends by its
    [break]. *)
Lemma notebook_report_two_grids (fs : FileSystem)
    (load_img : string → nat → nat → nat → nat → nat → Byte.byte)
    (random_permutation : Z → nat → list nat)
    (predict : Image → list Q) (fuel : nat) :
  (∀ s n, random_permutation s n ≡ₚ seq 0 n) →
  NoDup (item_name <$> fs data_dir) →
  CLASS_NAMES (fs data_dir) ≠ [] →
  (∀ img, length (predict img) = Loader.num_classes (train_data_gen fs)) →
  0 < Loader.samples (val_data_gen fs) →
  2 ≤ fuel →
  ∃ fig1 fig2,
    report (directory_next load_img random_permutation) predict
      (class_names_of (val_data_gen fs)) fuel (val_data_gen fs)
    = Ok (Some ([fig1; fig2], by_break)).
Proof.
  intros Hperm Hnd Hne Hpredict Hsamples Hfuel.
  set (it0 := val_data_gen fs). fold it0 in Hsamples.
  destruct (BatchFacts.notebook_loaders_well_formed fs it0 Hnd (or_intror eq_refl))
    as (Hwf0 & Hok0 & _ & Hbs & _ & _ & Hsize & _).
  assert (Hpos : 0 < size (Loader.class_indices it0)).
  { rewrite Hsize. destruct (CLASS_NAMES (fs data_dir)); [done | simpl; lia]. }
  assert (Hout : ∀ img, length (predict img) = size (Loader.class_indices it0)).
  { intros img. rewrite Hpredict, Hsize. done. }
  set (it1 := Loader.advance random_permutation it0).
  assert (Hsame : Loader.same_loader it0 it1) by apply LoaderFacts.advance_same_loader.
  assert (Hwf1 : Loader.well_formed it1).
  { by apply (LoaderFacts.same_loader_well_formed it0). }
  assert (Hok1 : Loader.index_ok it1).
  { by apply LoaderFacts.advance_index_ok. }
  destruct (LoaderFacts.next_positions random_permutation Hperm it0 Hok0) as (Hidx0 & Hle0 & _).
  destruct (LoaderFacts.next_positions random_permutation Hperm it1 Hok1) as (Hidx1 & Hle1 & _).
  pose proof (LoaderFacts.next_total load_img random_permutation Hperm it0 Hwf0 Hok0) as Hn0.
  pose proof (LoaderFacts.next_total load_img random_permutation Hperm it1 Hwf1 Hok1) as Hn1.
  destruct Hsame as (_ & Ha & Hci & _ & _ & _ & Hs).
  assert (Hbs1 : batch_size (Loader.args it1) = BATCH_SIZE) by (by rewrite Ha).
  assert (Hnz0 := LoaderFacts.next_positions_nonempty random_permutation Hperm it0 Hok0).
  assert (Hnz1 := LoaderFacts.next_positions_nonempty random_permutation Hperm it1 Hok1).
  rewrite Hs in Hnz1.
  rewrite Hbs in Hle0, Hnz0. rewrite Hbs1 in Hle1, Hnz1.
  unfold BATCH_SIZE in Hle0, Hle1, Hnz0, Hnz1.
  specialize (Hnz0 Hsamples ltac:(lia)). specialize (Hnz1 Hsamples ltac:(lia)).
  pose proof (batch_of_renderable load_img predict it0 _ Hwf0 Hidx0 (conj Hnz0 Hle0) Hout Hpos)
    as Hr0.
  assert (Hr1 : renderable predict (class_names_of it0)
                  (Loader.batch_of load_img it1
                     (Loader.slice (Loader.current_index it1)
                        (Loader.current_index it1 + batch_size (Loader.args it1))
                        (Loader.pass_order random_permutation it1)))).
  { assert (Hcn : class_names_of it0 = class_names_of it1).
    { unfold class_names_of. by rewrite Hci. }
    rewrite Hcn.
    apply batch_of_renderable;
      [done | done | by split | intros img; rewrite Hci; apply Hout | by rewrite Hci]. }
  destruct (ReportFacts.render_batch_total predict _ 1 _ Hr0) as (fig1 & Hf1 & _).
  destruct (ReportFacts.render_batch_total predict _ 2 _ Hr1) as (fig2 & Hf2 & _).
  exists fig1, fig2.
  destruct fuel as [|[|fuel]]; [lia | lia |].
  unfold report, default_limit.
  refine (ReportFacts.eval_loop_two _ predict _ fuel it0 it1
            (Loader.advance random_permutation it1) _ _ fig1 fig2 _ _ Hf1 Hf2).
  - unfold directory_next. rewrite Hn0. reflexivity.
  - unfold directory_next. rewrite Hn1. reflexivity.
Qed.

(** The end-to-end scenario of the specification: two classes of ten
    images each, batches of four, a fifth held out: sixteen training
    images in four batches a pass, four validation images in one. *)
Lemma split_scenario :
  let fs : FileSystem := λ _, scenario_root in
  let a sub := {| seed := 2020; directory := data_dir; batch_size := 4; shuffle := true;
                  target_size := (IMG_HEIGHT, IMG_WIDTH);
                  classes := CLASS_NAMES (fs data_dir); subset := sub |} in
  let train := Loader.flow_from_directory fs image_generator (a training) in
  let val := Loader.flow_from_directory fs image_generator (a validation) in
  Loader.samples train = 16 ∧ Loader.len train = 4 ∧
  Loader.samples val = 4 ∧ Loader.len val = 1 ∧
  steps_per_epoch train = 4%Z.
Proof. vm_compute. done. Qed.

(** * Further properties of the code *)

(** ** Names and arg-max *)

Lemma case_of_char (c : ascii) :
  (is_lower c = true → is_lower (to_upper c) = false ∧ is_upper (to_upper c) = true) ∧
  (is_upper c = true → is_lower (to_lower c) = true).
Proof.
  destruct c as [[] [] [] [] [] [] [] []]; vm_compute; split; intros H;
    try discriminate H; auto.
Qed.

Lemma title_from_idempotent (previous_is_cased : bool) (s : string) :
  title_from previous_is_cased (title_from previous_is_cased s)
  = title_from previous_is_cased s.
Proof.
  revert previous_is_cased. induction s as [|c rest IH]; intros b; simpl; [done|].
  destruct (case_of_char c) as [Hlow Hup].
  destruct (is_lower c) eqn:Hl.
  - destruct (Hlow eq_refl) as [Hl' Hu']. destruct b; simpl.
    + rewrite Hl. by rewrite IH.
    + rewrite Hl', Hu'. by rewrite IH.
  - destruct (is_upper c) eqn:Hu.
    + pose proof (Hup eq_refl) as Hl'. destruct b; simpl.
      * rewrite Hl'. by rewrite IH.
      * rewrite Hl, Hu. by rewrite IH.
    + simpl. rewrite Hl, Hu. by rewrite IH.
Qed.

(** X3: capitalising a name that is already capitalised changes nothing, so
    the second [.title()] of the loop body, applied to an element of
    [class_names], returns that element. *)
Theorem title_idempotent (s : string) : title (title s) = title s.
Proof. apply title_from_idempotent. Qed.

Lemma Qle_bool_false_lt (x best : Q) : Qle_bool x best = false → (best < x)%Q.
Proof.
  intros H. apply Qnot_le_lt. intros Hle.
  apply Qle_bool_iff in Hle. congruence.
Qed.

(** The state of the scan: [best] sits at [best_i] in the part scanned so
    far, nothing scanned is larger, and everything before it is smaller. *)
Lemma argmax_from_spec (pre row : list Q) (best_i : nat) (best : Q) :
  pre !! best_i = Some best →
  (∀ j y, pre !! j = Some y → (y <= best)%Q) →
  (∀ j y, j < best_i → pre !! j = Some y → (y < best)%Q) →
  ∃ x, (pre ++ row) !! argmax_from best_i best (length pre) row = Some x ∧
       (∀ j y, (pre ++ row) !! j = Some y → (y <= x)%Q) ∧
       (∀ j y, j < argmax_from best_i best (length pre) row →
               (pre ++ row) !! j = Some y → (y < x)%Q).
Proof.
  revert pre best_i best. induction row as [|x row IH]; intros pre best_i best Hbest Hmax Hfirst.
  - simpl. rewrite app_nil_r. eauto.
  - simpl. destruct (Qle_bool x best) eqn:Hx.
    + apply Qle_bool_iff in Hx.
      replace (pre ++ x :: row) with ((pre ++ [x]) ++ row) by (by rewrite <- app_assoc).
      replace (S (length pre)) with (length (pre ++ [x])) by (rewrite length_app; simpl; lia).
      apply IH.
      * apply lookup_app_l_Some. exact Hbest.
      * intros j y Hj. apply lookup_app_Some in Hj as [Hj | [_ Hj]]; [by eapply Hmax|].
        apply list_lookup_singleton_Some in Hj as [_ <-]. exact Hx.
      * intros j y Hlt Hj. apply lookup_app_Some in Hj as [Hj | [Hge _]]; [by eapply Hfirst|].
        apply lookup_lt_Some in Hbest. lia.
    + apply Qle_bool_false_lt in Hx.
      replace (pre ++ x :: row) with ((pre ++ [x]) ++ row) by (by rewrite <- app_assoc).
      replace (S (length pre)) with (length (pre ++ [x])) by (rewrite length_app; simpl; lia).
      apply IH.
      * rewrite lookup_app_r by lia. by rewrite Nat.sub_diag.
      * intros j y Hj. apply lookup_app_Some in Hj as [Hj | [_ Hj]].
        -- apply Qlt_le_weak. eapply Qle_lt_trans; [by eapply Hmax | exact Hx].
        -- apply list_lookup_singleton_Some in Hj as [_ <-]. apply Qle_refl.
      * intros j y Hlt Hj. apply lookup_app_Some in Hj as [Hj | [Hge _]]; [|lia].
        eapply Qle_lt_trans; [by eapply Hmax | exact Hx].
Qed.

(** X4: [np.argmax] of a row returns the position of a largest entry, and
    of the first one when several are largest: no entry is larger, and all
    entries before it are strictly smaller. *)
Theorem argmax_first_maximum (row : list Q) (i : nat) :
  argmax row = Ok i →
  ∃ x, row !! i = Some x ∧
       (∀ j y, row !! j = Some y → (y <= x)%Q) ∧
       (∀ j y, j < i → row !! j = Some y → (y < x)%Q).
Proof.
  destruct row as [|x0 row]; simpl; [done|]. intros [= <-].
  apply (argmax_from_spec [x0] row 0 x0).
  - done.
  - intros j y Hj. apply list_lookup_singleton_Some in Hj as [_ <-]. apply Qle_refl.
  - intros j y Hlt. lia.
Qed.

Lemma argmax_first_maximum_witness :
  ∃ x, [(1 # 5)%Q; (2 # 5)%Q; (2 # 5)%Q] !! 1 = Some x ∧
       (∀ j y, [(1 # 5)%Q; (2 # 5)%Q; (2 # 5)%Q] !! j = Some y → (y <= x)%Q) ∧
       (∀ j y, j < 1 → [(1 # 5)%Q; (2 # 5)%Q; (2 # 5)%Q] !! j = Some y → (y < x)%Q).
Proof. apply (argmax_first_maximum [(1 # 5)%Q; (2 # 5)%Q; (2 # 5)%Q] 1). reflexivity. Defined.

(** X5: the label row the loader writes for a class index and the arg-max
    the loop takes of it are inverse to each other: for an index below the
    width the row has that width, a one at the index, zeros elsewhere, and
    its arg-max is the index; an index that does not fit is an
    [IndexError]. *)
Theorem one_hot_argmax (width label : nat) :
  (label < width →
   ∃ row, Loader.one_hot width label = Ok row ∧ length row = width ∧
          argmax row = Ok label ∧
          ∀ j, j < width → row !! j = Some (if decide (j = label) then 1%Q else 0%Q)) ∧
  (width ≤ label → Loader.one_hot width label = Err IndexError).
Proof.
  unfold Loader.one_hot. split.
  - intros Hlt. rewrite decide_True by done. eexists. split; [reflexivity|].
    split; [by rewrite length_insert, length_replicate|].
    split; [by apply argmax_one_hot|].
    intros j Hj. destruct (decide (j = label)) as [-> | Hne].
    + apply list_lookup_insert_eq. by rewrite length_replicate.
    + rewrite list_lookup_insert_ne by done. by apply lookup_replicate_2.
  - intros Hge. rewrite decide_False by lia. done.
Qed.

Lemma one_hot_argmax_witness :
  (∃ row, Loader.one_hot 8 6 = Ok row ∧ length row = 8 ∧ argmax row = Ok 6 ∧
          ∀ j, j < 8 → row !! j = Some (if decide (j = 6) then 1%Q else 0%Q)) ∧
  Loader.one_hot 8 8 = Err IndexError.
Proof.
  split.
  - apply (proj1 (one_hot_argmax 8 6)). lia.
  - apply (proj2 (one_hot_argmax 8 8)). lia.
Defined.

(** ** The loop of cell 23 on any sequence and any limit *)

Lemma mapM_Err {A B : Type} (f : A → Result B) (l1 l2 : list A) (a : A) (e : PyError) :
  Forall (λ x, ∃ y, f x = Ok y) l1 → f a = Err e → mapM f (l1 ++ a :: l2) = Err e.
Proof.
  intros H Ha. induction H as [|x l1 (y & Hy) _ IH]; simpl.
  - by rewrite Ha.
  - rewrite Hy. simpl. by rewrite IH.
Qed.

Section LoopOnList.
Variable predict : Image → list Q.
Variable class_names : list string.

Local Abbreviation draw := (render_batch predict class_names).
Local Abbreviation loop := (eval_loop list_next predict class_names).

(** From any count on: the loop draws batch after batch, numbering them
    from the count, until the count reaches the limit or the list ends. *)
Lemma eval_loop_list_from (limit : nat) (l : list Batch) (fuel batch_count : nat)
    (figures : list Figure) :
  Forall (renderable predict class_names) l → length l < fuel →
  ∃ figs,
    loop fuel limit l batch_count figures
    = Ok (Some (figures ++ figs,
                if decide (batch_count < limit ≤ batch_count + length l)
                then by_break else by_exhaustion)) ∧
    length figs = (if decide (batch_count < limit ≤ batch_count + length l)
                   then limit - batch_count else length l) ∧
    ∀ k fig, figs !! k = Some fig →
             ∃ b, l !! k = Some b ∧ draw (batch_count + k + 1) b = Ok fig.
Proof.
  revert fuel batch_count figures.
  induction l as [|b l IH]; intros fuel c figures Hall Hfuel.
  - destruct fuel as [|fuel]; [simpl in Hfuel; lia|].
    exists []. rewrite app_nil_r, !decide_False by (simpl; lia).
    split; [done|]. split; [done|]. intros k fig Hk. done.
  - destruct fuel as [|fuel]; [simpl in Hfuel; lia|].
    apply Forall_cons in Hall as [Hb Hall]. simpl in Hfuel.
    destruct (ReportFacts.render_batch_total predict class_names (c + 1) b Hb)
      as (fig & Hfig & _).
    simpl. rewrite Hfig. simpl.
    destruct (decide (c + 1 = limit)) as [Heq | Hne].
    + exists [fig].
      assert (Hin : c < limit ≤ c + S (length l)) by lia.
      rewrite !(decide_True _ _ Hin).
      split; [done|]. split; [simpl; lia|].
      intros k fig' Hk. apply list_lookup_singleton_Some in Hk as [-> <-].
      exists b. split; [done|]. by rewrite Nat.add_0_r.
    + destruct (IH fuel (c + 1) (figures ++ [fig]) Hall) as (figs & -> & Hlen & Hfigs);
        [lia|].
      exists (fig :: figs). rewrite <- app_assoc. simpl.
      destruct (decide (c + 1 < limit ≤ c + 1 + length l)) as [Hin | Hout].
      * assert (Hin' : c < limit ≤ c + S (length l)) by lia.
        rewrite !(decide_True _ _ Hin').
        split; [done|]. split; [simpl; lia|].
        intros [|k] fig' Hk; simpl in Hk.
        -- injection Hk as <-. exists b. split; [done|]. by rewrite Nat.add_0_r.
        -- destruct (Hfigs k fig' Hk) as (b' & Hb' & Hdraw). exists b'. split; [done|].
           replace (c + S k + 1) with (c + 1 + k + 1) by lia. exact Hdraw.
      * assert (Hout' : ¬ (c < limit ≤ c + S (length l))) by lia.
        rewrite !(decide_False _ _ Hout').
        split; [done|]. split; [simpl; lia|].
        intros [|k] fig' Hk; simpl in Hk.
        -- injection Hk as <-. exists b. split; [done|]. by rewrite Nat.add_0_r.
        -- destruct (Hfigs k fig' Hk) as (b' & Hb' & Hdraw). exists b'. split; [done|].
           replace (c + S k + 1) with (c + 1 + k + 1) by lia. exact Hdraw.
Qed.

End LoopOnList.

(** X6: on a finite sequence of batches that can be drawn, the loop with
    a limit draws the first [limit] batches and leaves by [break] when the
    sequence has at least [limit] >= 1 batches; otherwise (a shorter
    sequence, or the limit 0, which the counter never equals) it draws
    every batch and ends with the sequence.  The figure at position [k] is
    the drawing of batch [k], numbered [k + 1]. *)
Theorem eval_loop_on_list (predict : Image → list Q) (class_names : list string)
    (limit : nat) (l : list Batch) (fuel : nat) :
  Forall (renderable predict class_names) l → length l < fuel →
  ∃ figs,
    eval_loop list_next predict class_names fuel limit l 0 []
    = Ok (Some (figs, if decide (1 ≤ limit ≤ length l) then by_break else by_exhaustion)) ∧
    length figs = (if decide (1 ≤ limit ≤ length l) then limit else length l) ∧
    ∀ k fig, figs !! k = Some fig →
             ∃ b, l !! k = Some b ∧ render_batch predict class_names (k + 1) b = Ok fig.
Proof.
  intros Hall Hfuel.
  destruct (eval_loop_list_from predict class_names limit l fuel 0 [] Hall Hfuel)
    as (figs & Hloop & Hlen & Hfigs).
  exists figs.
  destruct (decide (1 ≤ limit ≤ length l)) as [Hin | Hout].
  - assert (Hin' : 0 < limit ≤ 0 + length l) by lia.
    rewrite (decide_True _ _ Hin') in Hloop. rewrite (decide_True _ _ Hin') in Hlen.
    split; [exact Hloop|]. split; [lia|]. exact Hfigs.
  - assert (Hout' : ¬ (0 < limit ≤ 0 + length l)) by lia.
    rewrite (decide_False _ _ Hout') in Hloop. rewrite (decide_False _ _ Hout') in Hlen.
    split; [exact Hloop|]. split; [lia|]. exact Hfigs.
Qed.

Lemma eval_loop_on_list_witness :
  ∃ figs,
    eval_loop list_next sample_predict sample_class_names 2 2 [batch_of_class_1] 0 []
    = Ok (Some (figs, if decide (1 ≤ 2 ≤ length [batch_of_class_1])
                      then by_break else by_exhaustion)) ∧
    length figs = (if decide (1 ≤ 2 ≤ length [batch_of_class_1])
                   then 2 else length [batch_of_class_1]) ∧
    ∀ k fig, figs !! k = Some fig →
             ∃ b, [batch_of_class_1] !! k = Some b ∧
                  render_batch sample_predict sample_class_names (k + 1) b = Ok fig.
Proof.
  apply (eval_loop_on_list sample_predict sample_class_names 2 [batch_of_class_1] 2).
  - vm_compute. repeat constructor.
  - simpl. lia.
Defined.

Section Oversized.
Variable predict : Image → list Q.
Variable class_names : list string.

Lemma render_sample_in_grid (b : Batch) (predicted_id label_id : list nat)
    (predicted_label_batch : list string) (n : nat) :
  n < 32 → n < shape0 b →
  length predicted_id = shape0 b → length label_id = shape0 b →
  length predicted_label_batch = shape0 b →
  Forall (λ l, l < length class_names) label_id →
  ∃ cell, render_sample class_names b predicted_id label_id predicted_label_batch n
          = Ok cell.
Proof.
  intros H32 Hn Hp Hl Hpl Hlid. unfold render_sample, subplot.
  rewrite decide_True by (simpl; lia). simpl.
  destruct (getitem_lt (image_batch b) n) as (img & -> & _); [exact Hn|]. simpl.
  destruct (getitem_lt predicted_id n) as (p & -> & _); [lia|]. simpl.
  destruct (getitem_lt label_id n) as (l & -> & Hln); [lia|]. simpl.
  destruct (getitem_lt predicted_label_batch n) as (pl & -> & _); [lia|]. simpl.
  destruct (decide (p = l)) as [Heq|Hne]; simpl; [eauto|].
  rewrite Forall_forall in Hlid.
  destruct (getitem_lt class_names l) as (tl & -> & _).
  { apply Hlid. by apply list_elem_of_lookup_2 in Hln. }
  simpl. eauto.
Qed.

(** X7: a batch of more than 32 samples cannot be drawn: the first 32
    samples are placed, and the 33rd asks [plt.subplot] for cell 33 of the
    8 by 4 grid, which is a [ValueError]. *)
Theorem render_batch_oversized (batch_count : nat) (b : Batch) :
  32 < shape0 b →
  length (label_batch b) = shape0 b →
  Forall (λ img, 0 < length (predict img) ≤ length class_names) (image_batch b) →
  Forall (λ row, 0 < length row ≤ length class_names) (label_batch b) →
  render_batch predict class_names batch_count b = Err ValueError.
Proof.
  intros Hbig Hlabels Hout Hrows. unfold render_batch.
  assert (Hshape : shape0 b = length (image_batch b)) by done.
  rewrite model_predict_Ok by lia. simpl.
  destruct (mapM_exists argmax (λ i, i < length class_names) (predict <$> image_batch b))
    as (pid & -> & Hpid_len & Hpid).
  { apply Forall_fmap. eapply Forall_impl; [exact Hout|]. intros img [Hpos Hle].
    unfold compose. destruct (argmax_nonempty (predict img) Hpos) as (i & Hi & Hlt).
    exists i. split; [done | lia]. }
  rewrite length_fmap in Hpid_len. simpl.
  destruct (mapM_exists (getitem class_names) (λ _, True) pid)
    as (plb & -> & Hplb_len & _).
  { eapply Forall_impl; [exact Hpid|]. intros i Hi.
    destruct (getitem_lt class_names i Hi) as (c & Hc & _). eauto. }
  simpl.
  destruct (mapM_exists argmax (λ i, i < length class_names) (label_batch b))
    as (lid & -> & Hlid_len & Hlid).
  { eapply Forall_impl; [exact Hrows|]. intros row [Hpos Hle].
    destruct (argmax_nonempty row Hpos) as (i & Hi & Hlt).
    exists i. split; [done | lia]. }
  simpl.
  replace (seq 0 (shape0 b)) with (seq 0 32 ++ 32 :: seq 33 (shape0 b - 33)).
  2:{ transitivity (seq 0 (32 + S (shape0 b - 33))).
      - rewrite seq_app. reflexivity.
      - f_equal. lia. }
  rewrite (mapM_Err _ _ _ _ ValueError); [done | |].
  - apply Forall_forall. intros n Hn. apply elem_of_seq in Hn.
    apply render_sample_in_grid; [lia | lia | congruence | congruence | congruence | done].
  - unfold render_sample, subplot. rewrite decide_False by (simpl; lia). done.
Qed.

End Oversized.

Lemma render_batch_oversized_witness :
  render_batch sample_predict sample_class_names 1
    {| image_batch := replicate 33 sample_image;
       label_batch := replicate 33 [1%Q; 0%Q] |}
  = Err ValueError.
Proof.
  apply render_batch_oversized.
  - vm_compute. lia.
  - reflexivity.
  - apply Forall_replicate. vm_compute. lia.
  - apply Forall_replicate. vm_compute. lia.
Defined.

Lemma class_names_of_NoDup_witness :
  class_names_of (Loader.flow_from_directory sample_fs image_generator (val_args sample_fs))
  = title <$> classes (val_args sample_fs).
Proof.
  apply (class_names_of_NoDup sample_fs image_generator (val_args sample_fs)).
  refine (bool_decide_unpack _ _). vm_compute. exact I.
Defined.

Lemma render_batch_cells_witness :
  ∃ img row p l name,
    image_batch batch_of_class_0 !! 0 = Some img ∧ argmax (sample_predict img) = Ok p ∧
    label_batch batch_of_class_0 !! 0 = Some row ∧ argmax row = Ok l ∧
    sample_class_names !! p = Some name ∧
    position
      {| position := 1; shown := sample_image;
         title_text := "02_Stroma"; title_color := red |} = 0 + 1 ∧
    title_text
      {| position := 1; shown := sample_image;
         title_text := "02_Stroma"; title_color := red |} = title name ∧
    title_color
      {| position := 1; shown := sample_image;
         title_text := "02_Stroma"; title_color := red |}
    = (if decide (p = l) then green else red).
Proof.
  apply (ReportFacts.render_batch_cells sample_predict sample_class_names 1
           batch_of_class_0
           {| subplots :=
                [{| position := 1; shown := sample_image;
                    title_text := "02_Stroma"; title_color := red |}];
              suptitle :=
                Some "Model predictions (green: correct, red: incorrect) for batch 1" |}
           0).
  - vm_compute. reflexivity.
  - reflexivity.
Defined.

(** Without any validation file the first batch is empty, and the loop
    ends at once with the [ValueError] of [model.predict]. *)
Lemma notebook_report_no_validation_file (fs : FileSystem)
    (load_img : string → nat → nat → nat → nat → nat → Byte.byte)
    (random_permutation : Z → nat → list nat)
    (predict : Image → list Q) (fuel : nat) :
  (∀ s n, random_permutation s n ≡ₚ seq 0 n) →
  NoDup (item_name <$> fs data_dir) →
  Loader.samples (val_data_gen fs) = 0 →
  0 < fuel →
  report (directory_next load_img random_permutation) predict
    (class_names_of (val_data_gen fs)) fuel (val_data_gen fs)
  = Err ValueError.
Proof.
  intros Hperm Hnd Hnone Hfuel.
  set (it0 := val_data_gen fs) in *.
  destruct (BatchFacts.notebook_loaders_well_formed fs it0 Hnd (or_intror eq_refl))
    as (Hwf0 & Hok0 & _).
  pose proof (LoaderFacts.next_total load_img random_permutation Hperm it0 Hwf0 Hok0) as Hn0.
  assert (Hslice : Loader.slice (Loader.current_index it0)
                     (Loader.current_index it0 + batch_size (Loader.args it0))
                     (Loader.pass_order random_permutation it0) = []).
  { apply nil_length_inv. rewrite LoaderFacts.slice_length.
    pose proof (LoaderFacts.pass_order_perm random_permutation Hperm it0 Hok0) as Hp.
    apply Permutation_length in Hp. rewrite length_seq, Hnone in Hp. lia. }
  rewrite Hslice in Hn0.
  destruct fuel as [|fuel]; [lia|].
  unfold report, default_limit. simpl. unfold directory_next.
  rewrite Hn0. reflexivity.
Qed.

Lemma notebook_report_two_grids_witness :
  ∃ fig1 fig2,
    report (directory_next sample_load_img sample_permutation) sample_predict
      (class_names_of (val_data_gen sample_fs)) 2 (val_data_gen sample_fs)
    = Ok (Some ([fig1; fig2], by_break)).
Proof.
  apply (notebook_report_two_grids sample_fs sample_load_img sample_permutation
           sample_predict 2).
  - intros s n. apply reverse_Permutation.
  - refine (bool_decide_unpack _ _). vm_compute. exact I.
  - vm_compute. discriminate.
  - intros img. reflexivity.
  - vm_compute. lia.
  - lia.
Defined.

(** The sub-plots of a figure do not depend on the number of the batch;
    only the line above them does. *)
Lemma render_batch_subplots (predict : Image → list Q) (class_names : list string)
    (c1 c2 : nat) (b : Batch) (fig1 fig2 : Figure) :
  render_batch predict class_names c1 b = Ok fig1 →
  render_batch predict class_names c2 b = Ok fig2 →
  subplots fig1 = subplots fig2.
Proof.
  unfold render_batch. intros H1 H2.
  apply bind_Ok in H1 as (rows & Hrows & H1). rewrite Hrows in H2. simpl in H2.
  apply bind_Ok in H1 as (pid & Hpid & H1). rewrite Hpid in H2. simpl in H2.
  apply bind_Ok in H1 as (plb & Hplb & H1). rewrite Hplb in H2. simpl in H2.
  apply bind_Ok in H1 as (lid & Hlid & H1). rewrite Hlid in H2. simpl in H2.
  apply bind_Ok in H1 as (cells & Hcells & [= <-]). rewrite Hcells in H2. simpl in H2.
  by injection H2 as <-.
Qed.

(** X9: when the whole validation subset fits in one batch (at least one
    and at most 32 files), the iterator wraps around after the first
    batch: the loop still draws two figures, and the second shows the same
    sub-plots as the first. *)
Theorem notebook_report_single_batch (fs : FileSystem)
    (load_img : string → nat → nat → nat → nat → nat → Byte.byte)
    (random_permutation : Z → nat → list nat)
    (predict : Image → list Q) (fuel : nat) :
  NoDup (item_name <$> fs data_dir) →
  CLASS_NAMES (fs data_dir) ≠ [] →
  (∀ img, length (predict img) = Loader.num_classes (train_data_gen fs)) →
  0 < Loader.samples (val_data_gen fs) ≤ 32 →
  2 ≤ fuel →
  ∃ fig1 fig2,
    report (directory_next load_img random_permutation) predict
      (class_names_of (val_data_gen fs)) fuel (val_data_gen fs)
    = Ok (Some ([fig1; fig2], by_break)) ∧
    subplots fig1 = subplots fig2.
Proof.
  intros Hnd Hne Hpredict [Hsamples Hsmall] Hfuel.
  set (it0 := val_data_gen fs). fold it0 in Hsmall, Hsamples.
  destruct (BatchFacts.notebook_loaders_well_formed fs it0 Hnd (or_intror eq_refl))
    as (Hwf0 & _ & _ & _ & _ & _ & Hsize & _).
  assert (Hpos : 0 < size (Loader.class_indices it0)).
  { rewrite Hsize. destruct (CLASS_NAMES (fs data_dir)); [done | simpl; lia]. }
  assert (Hout : ∀ img, length (predict img) = size (Loader.class_indices it0)).
  { intros img. rewrite Hpredict, Hsize. done. }
  set (idx := seq 0 (Loader.samples it0)).
  assert (Hidx : Forall (λ j, j < Loader.samples it0) idx).
  { apply Forall_forall. intros j Hj. apply elem_of_seq in Hj. lia. }
  assert (Hslice : ∀ n, n ≤ 32 → Loader.slice 0 (0 + 32) (seq 0 n) = seq 0 n).
  { intros n Hn. unfold Loader.slice. simpl. rewrite take_ge; [done|].
    rewrite length_seq. exact Hn. }
  set (b := Loader.batch_of load_img it0 idx).
  set (it1 := Loader.advance random_permutation it0).
  assert (Hc0 : Loader.current_index it0 = 0).
  { unfold Loader.current_index. case_decide; [done|]. simpl. apply Nat.Div0.mod_0_l. }
  assert (Hn0 : Loader.next load_img random_permutation it0 = Ok (b, it1)).
  { unfold Loader.next. rewrite Hc0.
    replace (Loader.pass_order random_permutation it0) with (seq 0 (Loader.samples it0))
      by reflexivity.
    change (batch_size (Loader.args it0)) with 32.
    rewrite (Hslice _ Hsmall). fold idx.
    rewrite (LoaderFacts.get_batch_total load_img it0 idx Hwf0 Hidx). reflexivity. }
  assert (Hb1 : Loader.batch_index it1 = 0).
  { change (Loader.batch_index it1)
      with (if decide (Loader.current_index it0 + batch_size (Loader.args it0)
                       < Loader.samples it0)
            then S (Loader.batch_index it0) else 0).
    rewrite Hc0. change (batch_size (Loader.args it0)) with 32.
    rewrite decide_False by lia. done. }
  assert (Hwf1 : Loader.well_formed it1).
  { apply (LoaderFacts.same_loader_well_formed it0);
      [apply LoaderFacts.advance_same_loader | done]. }
  assert (Hc1 : Loader.current_index it1 = 0).
  { unfold Loader.current_index. case_decide; [done|]. rewrite Hb1. simpl.
    apply Nat.Div0.mod_0_l. }
  assert (Hn1 : Loader.next load_img random_permutation it1
                = Ok (b, Loader.advance random_permutation it1)).
  { unfold Loader.next. rewrite Hc1.
    replace (Loader.pass_order random_permutation it1) with (seq 0 (Loader.samples it0)).
    2:{ unfold Loader.pass_order. rewrite decide_True by exact Hb1. reflexivity. }
    change (batch_size (Loader.args it1)) with 32.
    rewrite (Hslice _ Hsmall). fold idx.
    rewrite (LoaderFacts.get_batch_total load_img it1 idx Hwf1 Hidx). reflexivity. }
  assert (Hr : renderable predict (class_names_of it0) b).
  { apply batch_of_renderable; try done. unfold idx. rewrite length_seq. by split. }
  destruct (ReportFacts.render_batch_total predict _ 1 _ Hr) as (fig1 & Hf1 & _).
  destruct (ReportFacts.render_batch_total predict _ 2 _ Hr) as (fig2 & Hf2 & _).
  exists fig1, fig2. split.
  - destruct fuel as [|[|fuel]]; [lia | lia |].
    unfold report, default_limit.
    refine (ReportFacts.eval_loop_two _ predict _ fuel it0 it1
              (Loader.advance random_permutation it1) _ _ fig1 fig2 _ _ Hf1 Hf2).
    + unfold directory_next. rewrite Hn0. reflexivity.
    + unfold directory_next. rewrite Hn1. reflexivity.
  - by apply (render_batch_subplots predict (class_names_of it0) 1 2 b).
Qed.

Lemma notebook_report_single_batch_witness :
  ∃ fig1 fig2,
    report (directory_next sample_load_img sample_permutation) sample_predict
      (class_names_of (val_data_gen sample_fs)) 3 (val_data_gen sample_fs)
    = Ok (Some ([fig1; fig2], by_break)) ∧
    subplots fig1 = subplots fig2.
Proof.
  apply (notebook_report_single_batch sample_fs sample_load_img sample_permutation
           sample_predict 3).
  - refine (bool_decide_unpack _ _). vm_compute. exact I.
  - vm_compute. discriminate.
  - intros img. reflexivity.
  - vm_compute. lia.
  - lia.
Defined.

(** ** Counting the images and splitting them *)

Lemma filter_all {A : Type} (P : A → Prop) `{∀ x, Decision (P x)} (l : list A) :
  Forall P l → filter P l = l.
Proof.
  induction 1 as [|x l Hx _ IH]; [done|].
  rewrite filter_cons, decide_True by done. by rewrite IH.
Qed.

Lemma filter_none {A : Type} (P : A → Prop) `{∀ x, Decision (P x)} (l : list A) :
  Forall (λ x, ¬ P x) l → filter P l = [].
Proof.
  induction 1 as [|x l Hx _ IH]; [done|].
  rewrite filter_cons, decide_False by done. exact IH.
Qed.

(** With pairwise distinct names, looking a directory up by its name
    finds its files; a regular file has none. *)
Lemma glob_dir_entry (root : list Entry) (e : Entry) :
  NoDup (item_name <$> root) → e ∈ root → glob_dir root (item_name e) = files_of e.
Proof.
  unfold glob_dir. induction root as [|e0 root IH]; intros Hnd Hin.
  - by apply elem_of_nil in Hin.
  - simpl in Hnd. apply NoDup_cons in Hnd as [Hfresh Hnd].
    rewrite filter_cons. apply elem_of_cons in Hin as [-> | Hin].
    + destruct (decide (is_dir e0 = true ∧ item_name e0 = item_name e0)) as [[Hd _] | Hnot].
      * by destruct e0.
      * rewrite filter_none.
        -- destruct e0 as [n | n files]; [done|]. exfalso. by apply Hnot.
        -- apply Forall_forall. intros e He [_ Hname]. apply Hfresh.
           apply list_elem_of_fmap. eauto.
    + rewrite decide_False.
      * by apply IH.
      * intros [_ Hname]. apply Hfresh. rewrite Hname.
        apply list_elem_of_fmap. eauto.
Qed.

Lemma split_lengths (root : list Entry) (gen : ImageDataGenerator)
    (ci : gmap string nat) (dirname : string) :
  length (Loader.list_valid_filenames root gen validation ci dirname)
  + length (Loader.list_valid_filenames root gen training ci dirname)
  = length (glob_dir root dirname).
Proof.
  unfold Loader.list_valid_filenames, Loader.split_bounds.
  rewrite !length_fmap, !LoaderFacts.slice_length. lia.
Qed.

Lemma split_lengths_all (root : list Entry) (gen : ImageDataGenerator)
    (ci : gmap string nat) (cls : list string) :
  length (mjoin (Loader.list_valid_filenames root gen validation ci <$> cls))
  + length (mjoin (Loader.list_valid_filenames root gen training ci <$> cls))
  = length (mjoin (glob_dir root <$> cls)).
Proof.
  induction cls as [|c cls IH]; [done|]. csimpl. rewrite !length_app.
  pose proof (split_lengths root gen ci c). lia.
Qed.

Lemma class_files_count (root es : list Entry) :
  NoDup (item_name <$> root) → es ⊆ root →
  mjoin (glob_dir root <$> (item_name <$> es)) = mjoin (files_of <$> es).
Proof.
  intros Hnd. induction es as [|e es IH]; intros Hsub; [done|]. csimpl.
  rewrite glob_dir_entry; [|done|apply Hsub; by left].
  f_equal. apply IH. intros x Hx. apply Hsub. by right.
Qed.

Lemma image_count_files (root : list Entry) :
  Forall (λ e, (item_name e = "LICENSE.txt" → files_of e = []) ∧
               Forall (λ f, ends_with ".tif" f = true) (files_of e)) root →
  length (mjoin (files_of <$> filter (λ item, item_name item ≠ "LICENSE.txt") root))
  = image_count root.
Proof.
  unfold image_count, glob_star_tif.
  induction 1 as [|e root [Hlic Htif] _ IH]; [done|]. csimpl.
  rewrite length_app, length_fmap, (filter_all _ _ Htif), <- IH.
  rewrite filter_cons. destruct (decide (item_name e ≠ "LICENSE.txt")) as [Hne | Heq].
  - csimpl. by rewrite length_app.
  - apply dec_stable in Heq. rewrite (Hlic Heq). done.
Qed.

(** X10: when the entries of the root directory have pairwise distinct
    names, nothing is stored under the name "LICENSE.txt" and every file
    of a sub-directory is named [*.tif], the images counted in cell 3
    are split between the two loaders without loss or overlap:
    [image_count] is the number of training samples plus the number of
    validation samples. *)
Theorem image_count_split (fs : FileSystem) :
  NoDup (item_name <$> fs data_dir) →
  Forall (λ e, (item_name e = "LICENSE.txt" → files_of e = []) ∧
               Forall (λ f, ends_with ".tif" f = true) (files_of e)) (fs data_dir) →
  image_count (fs data_dir)
  = Loader.samples (train_data_gen fs) + Loader.samples (val_data_gen fs).
Proof.
  intros Hnd Hfiles. unfold train_data_gen, val_data_gen, Loader.flow_from_directory.
  simpl. rewrite Nat.add_comm, split_lengths_all.
  unfold CLASS_NAMES, glob_star. rewrite class_files_count.
  - symmetry. by apply image_count_files.
  - exact Hnd.
  - intros e He. by apply list_elem_of_filter in He as [_ He].
Qed.

Lemma image_count_split_witness :
  image_count (sample_fs data_dir)
  = Loader.samples (train_data_gen sample_fs) + Loader.samples (val_data_gen sample_fs).
Proof.
  apply (image_count_split sample_fs).
  - refine (bool_decide_unpack _ _). vm_compute. exact I.
  - refine (bool_decide_unpack _ _). vm_compute. exact I.
Defined.

(** ** An epoch of [steps_per_epoch] steps *)

Lemma pass_count_bounds (n bs : nat) :
  0 < n → 0 < bs →
  ((n + bs - 1) / bs - 1) * bs < n ∧ n ≤ (n + bs - 1) / bs * bs.
Proof.
  intros Hn Hb.
  pose proof (Nat.div_mod_eq (n + bs - 1) bs) as Hdiv.
  pose proof (Nat.mod_upper_bound (n + bs - 1) bs) as Hmod.
  destruct ((n + bs - 1) / bs) as [|m]; nia.
Qed.

Section Epoch.
Variable load_img : string → nat → nat → nat → nat → nat → Byte.byte.
Variable random_permutation : Z → nat → list nat.
Hypothesis random_permutation_perm : ∀ s n, random_permutation s n ≡ₚ seq 0 n.

Local Abbreviation draw_batches := (Loader.take_batches load_img random_permutation).
Local Abbreviation order_of := (Loader.pass_order random_permutation).
Local Abbreviation samples_at := (Loader.batch_of load_img).

(** From any point of a pass on, the batches that are left are the rest
    of the order of the pass, cut into pieces, and the iterator is then
    back at the start of a pass. *)
Lemma rest_of_pass (k : nat) (it : Loader.DirectoryIterator) :
  Loader.well_formed it → Loader.index_ok it →
  0 < batch_size (Loader.args it) →
  Loader.batch_index it * batch_size (Loader.args it) < Loader.samples it →
  (k - 1) * batch_size (Loader.args it)
    < Loader.samples it - Loader.batch_index it * batch_size (Loader.args it) →
  Loader.samples it - Loader.batch_index it * batch_size (Loader.args it)
    ≤ k * batch_size (Loader.args it) →
  ∃ bl it',
    draw_batches k it = Ok (bl, it') ∧ Loader.batch_index it' = 0 ∧
    mjoin (image_batch <$> bl)
    = image_batch (samples_at it
        (drop (Loader.batch_index it * batch_size (Loader.args it)) (order_of it))) ∧
    mjoin (label_batch <$> bl)
    = label_batch (samples_at it
        (drop (Loader.batch_index it * batch_size (Loader.args it)) (order_of it))).
Proof.
  revert it. induction k as [|k IH]; intros it Hwf Hok Hbs Hc Hlow Hhigh; [lia|].
  set (bs := batch_size (Loader.args it)) in *.
  set (n := Loader.samples it) in *.
  set (c := Loader.batch_index it * bs) in *.
  assert (Hcur : Loader.current_index it = c).
  { unfold Loader.current_index. fold n. rewrite decide_False by lia.
    fold bs c. apply Nat.mod_small. exact Hc. }
  assert (Hlen : length (order_of it) = n).
  { rewrite (LoaderFacts.pass_order_perm random_permutation random_permutation_perm it Hok).
    apply length_seq. }
  simpl.
  rewrite (LoaderFacts.next_total load_img random_permutation random_permutation_perm
             it Hwf Hok).
  simpl. fold bs. rewrite Hcur.
  set (it1 := Loader.advance random_permutation it).
  assert (Hslice : Loader.slice c (c + bs) (order_of it) = take bs (drop c (order_of it))).
  { unfold Loader.slice. by rewrite take_drop_commute. }
  destruct (decide (c + bs < n)) as [Hmore | Hlast].
  - assert (Hbi : Loader.batch_index it1 = S (Loader.batch_index it)).
    { change (Loader.batch_index it1)
        with (if decide (Loader.current_index it + bs < n)
              then S (Loader.batch_index it) else 0).
      rewrite Hcur. by rewrite decide_True. }
    assert (Hord : order_of it1 = order_of it).
    { unfold Loader.pass_order at 1. rewrite Hbi. by rewrite decide_False. }
    destruct (IH it1) as (bl & it' & -> & Hend & Himg & Hlab).
    + apply (LoaderFacts.same_loader_well_formed it);
        [apply LoaderFacts.advance_same_loader | done].
    + by apply LoaderFacts.advance_index_ok.
    + exact Hbs.
    + rewrite Hbi. change (Loader.samples it1) with n.
      change (batch_size (Loader.args it1)) with bs. fold c. simpl. lia.
    + rewrite Hbi. change (Loader.samples it1) with n.
      change (batch_size (Loader.args it1)) with bs. simpl. fold c. nia.
    + rewrite Hbi. change (Loader.samples it1) with n.
      change (batch_size (Loader.args it1)) with bs. simpl. fold c. nia.
    + simpl. eexists _, it'. split; [reflexivity|]. split; [exact Hend|].
      rewrite Hbi, Hord in Himg, Hlab.
      change (batch_size (Loader.args it1)) with bs in Himg, Hlab.
      replace (S (Loader.batch_index it) * bs) with (c + bs) in Himg, Hlab
        by (unfold c; lia).
      rewrite <- (drop_drop (order_of it) bs c) in Himg, Hlab.
      csimpl. rewrite Himg, Hlab, Hslice.
      change (image_batch (samples_at it1 ?idx)) with (image_batch (samples_at it idx)).
      change (label_batch (samples_at it1 ?idx)) with (label_batch (samples_at it idx)).
      simpl. rewrite <- !fmap_app, !take_drop. done.
  - assert (Hbi : Loader.batch_index it1 = 0).
    { change (Loader.batch_index it1)
        with (if decide (Loader.current_index it + bs < n)
              then S (Loader.batch_index it) else 0).
      rewrite Hcur. by rewrite decide_False. }
    assert (Hk : k = 0) by (destruct k; [done | simpl in Hlow; nia]).
    subst k. simpl. eexists _, it1. split; [reflexivity|]. split; [exact Hbi|].
    csimpl. rewrite !app_nil_r, Hslice, take_ge; [done|].
    rewrite length_drop, Hlen. lia.
Qed.

End Epoch.

(** X11: [steps_per_epoch] steps are exactly one pass: drawn from a fresh
    loader with a positive batch size and at least one sample, both below
    [2^53] so that their float64 quotient is not rounded past an integer,
    the batches of that many steps are, put end to end, the samples of the
    subset in the order drawn for the pass, each sample once, and after
    them the iterator is at the start of the next pass. *)
Theorem epoch_is_one_pass (fs : FileSystem) (gen : ImageDataGenerator) (a : FlowArgs)
    (load_img : string → nat → nat → nat → nat → nat → Byte.byte)
    (random_permutation : Z → nat → list nat) :
  (∀ s n, random_permutation s n ≡ₚ seq 0 n) →
  NoDup (classes a) →
  0 < batch_size a →
  0 < Loader.samples (Loader.flow_from_directory fs gen a) →
  (Z.of_nat (batch_size a) < 2 ^ 53)%Z →
  (Z.of_nat (Loader.samples (Loader.flow_from_directory fs gen a)) < 2 ^ 53)%Z →
  ∃ bl it' order,
    Loader.take_batches load_img random_permutation
      (Z.to_nat (steps_per_epoch (Loader.flow_from_directory fs gen a)))
      (Loader.flow_from_directory fs gen a) = Ok (bl, it') ∧
    Loader.batch_index it' = 0 ∧
    order ≡ₚ seq 0 (Loader.samples (Loader.flow_from_directory fs gen a)) ∧
    mjoin (image_batch <$> bl)
    = image_batch (Loader.batch_of load_img (Loader.flow_from_directory fs gen a) order) ∧
    mjoin (label_batch <$> bl)
    = label_batch (Loader.batch_of load_img (Loader.flow_from_directory fs gen a) order).
Proof.
  intros Hperm Hnd Hbs Hn Hbs53 Hn53.
  set (it0 := Loader.flow_from_directory fs gen a) in *.
  assert (Hwf : Loader.well_formed it0) by (by apply LoaderFacts.flow_from_directory_well_formed).
  assert (Hok : Loader.index_ok it0) by (by intros H).
  assert (Hbi : Loader.batch_index it0 = 0) by reflexivity.
  assert (Hargs : batch_size (Loader.args it0) = batch_size a) by reflexivity.
  clearbody it0. unfold steps_per_epoch. rewrite Hargs.
  rewrite (steps_per_epoch_of_len _ _ Hn Hbs Hn53 Hbs53).
  destruct (pass_count_bounds _ _ Hn Hbs) as [Hlow Hhigh].
  destruct (rest_of_pass load_img random_permutation Hperm
              ((Loader.samples it0 + batch_size a - 1) / batch_size a) it0 Hwf Hok)
    as (bl & it' & Htake & Hend & Himg & Hlab).
  - rewrite Hargs. exact Hbs.
  - rewrite Hbi, Hargs. lia.
  - rewrite Hbi, Hargs. lia.
  - rewrite Hbi, Hargs. lia.
  - exists bl, it', (Loader.pass_order random_permutation it0).
    split; [exact Htake|]. split; [exact Hend|].
    split; [by apply LoaderFacts.pass_order_perm|].
    rewrite Hbi in Himg, Hlab. simpl in Himg, Hlab.
    split; [exact Himg | exact Hlab].
Qed.

Lemma epoch_is_one_pass_witness :
  ∃ bl it' order,
    Loader.take_batches sample_load_img sample_permutation
      (Z.to_nat (steps_per_epoch
                   (Loader.flow_from_directory sample_fs image_generator
                      (train_args sample_fs))))
      (Loader.flow_from_directory sample_fs image_generator (train_args sample_fs))
    = Ok (bl, it') ∧
    Loader.batch_index it' = 0 ∧
    order ≡ₚ seq 0 (Loader.samples
                      (Loader.flow_from_directory sample_fs image_generator
                         (train_args sample_fs))) ∧
    mjoin (image_batch <$> bl)
    = image_batch (Loader.batch_of sample_load_img
                     (Loader.flow_from_directory sample_fs image_generator
                        (train_args sample_fs)) order) ∧
    mjoin (label_batch <$> bl)
    = label_batch (Loader.batch_of sample_load_img
                     (Loader.flow_from_directory sample_fs image_generator
                        (train_args sample_fs)) order).
Proof.
  apply (epoch_is_one_pass sample_fs image_generator (train_args sample_fs)
           sample_load_img sample_permutation).
  - intros s n. apply reverse_Permutation.
  - refine (bool_decide_unpack _ _). vm_compute. exact I.
  - vm_compute. lia.
  - vm_compute. lia.
  - vm_compute. reflexivity.
  - vm_compute. reflexivity.
Defined.

(** ** The start script *)

(** X13: when the download leaves a regular file under the archive name
    and the extraction leaves the folder and keeps the archive, the script
    is idempotent up to the launch: run again on the directory it left,
    it neither downloads nor extracts nor changes the directory, and only
    launches the container. *)
Theorem start_notebook_idempotent (wget unzip : gmap string Kind → gmap string Kind)
    (dir : gmap string Kind) :
  (∀ d, wget d !! ZIP = Some RegularFile) →
  (∀ d, unzip d !! FOLDER = Some Directory ∧ unzip d !! ZIP = d !! ZIP) →
  start_notebook wget unzip (start_notebook wget unzip dir).1
  = ((start_notebook wget unzip dir).1, [DockerRun]).
Proof.
  intros Hwget Hunzip.
  assert (Hdone : ∀ d, d !! ZIP = Some RegularFile → d !! FOLDER = Some Directory →
                       start_notebook wget unzip d = (d, [DockerRun])).
  { intros d Hz Hf. unfold start_notebook. by rewrite !decide_True. }
  unfold start_notebook at 2 3.
  destruct (decide (dir !! ZIP = Some RegularFile)) as [Hz | Hz].
  - destruct (decide (dir !! FOLDER = Some Directory)) as [Hf | Hf]; simpl.
    + by apply Hdone.
    + destruct (Hunzip dir) as [Hf' Hz']. apply Hdone; [by rewrite Hz' | done].
  - destruct (decide (wget dir !! FOLDER = Some Directory)) as [Hf | Hf]; simpl.
    + by apply Hdone.
    + destruct (Hunzip (wget dir)) as [Hf' Hz']. apply Hdone; [by rewrite Hz' | done].
Qed.

Lemma start_notebook_idempotent_witness :
  start_notebook sample_wget sample_unzip (start_notebook sample_wget sample_unzip ∅).1
  = ((start_notebook sample_wget sample_unzip ∅).1, [DockerRun]).
Proof.
  apply (start_notebook_idempotent sample_wget sample_unzip ∅).
  - intros d. apply lookup_insert_eq.
  - intros d. split; [apply lookup_insert_eq | by apply lookup_insert_ne].
Defined.

(** ** A stray file among the class folders *)

(** X14: a regular file in the root directory, other than "LICENSE.txt",
    becomes a class of its own: both loaders give it a one-hot index and
    count it among their classes (and so does the width of the dense
    layer), but no sample of either loader carries that index. *)
Theorem stray_file_is_empty_class (fs : FileSystem) (name : string) :
  NoDup (item_name <$> fs data_dir) →
  File name ∈ fs data_dir → name ≠ "LICENSE.txt" →
  ∃ j, Loader.class_indices (train_data_gen fs) !! name = Some j ∧
       Loader.class_indices (val_data_gen fs) !! name = Some j ∧
       j < Loader.num_classes (train_data_gen fs) ∧
       (j ∉ Loader.sample_classes (train_data_gen fs)) ∧
       (j ∉ Loader.sample_classes (val_data_gen fs)).
Proof.
  intros Hnd Hin Hne.
  assert (Hcls : name ∈ CLASS_NAMES (fs data_dir)).
  { apply CLASS_NAMES_elem. split; [done|]. exists (File name). done. }
  apply list_elem_of_lookup in Hcls as [j Hj].
  pose proof (CLASS_NAMES_NoDup _ Hnd) as Hnd'.
  assert (Hempty : ∀ sub, ¬ (j ∈ Loader.sample_classes
            (Loader.flow_from_directory fs image_generator
               {| seed := 2020; directory := data_dir; batch_size := BATCH_SIZE;
                  shuffle := match sub with training => true | validation => false end;
                  target_size := (IMG_HEIGHT, IMG_WIDTH);
                  classes := CLASS_NAMES (fs data_dir); subset := sub |}))).
  { intros sub Hmem. simpl in Hmem.
    apply list_elem_of_fmap in Hmem as ([path c] & Hc & Hmem). simpl in Hc. subst c.
    apply list_elem_of_join in Hmem as (found & Hmem & Hfound).
    apply list_elem_of_fmap in Hfound as (dirname & -> & Hdir).
    unfold Loader.list_valid_filenames in Hmem.
    destruct (Loader.split_bounds _ _ _) as [start stop].
    apply list_elem_of_fmap in Hmem as (fname & [= -> Hidx] & Hfile).
    apply list_elem_of_lookup in Hdir as [j' Hj'].
    rewrite (proj2 (class_indices_lookup _ dirname j' Hnd') Hj') in Hidx.
    simpl in Hidx. subst j'.
    assert (dirname = name) as -> by congruence.
    pose proof (glob_dir_entry _ (File name) Hnd Hin) as Hglob. simpl in Hglob.
    rewrite Hglob in Hfile.
    unfold Loader.slice in Hfile. simpl in Hfile.
    rewrite take_nil, drop_nil in Hfile. by apply elem_of_nil in Hfile. }
  exists j.
  split; [by apply class_indices_lookup|]. split; [by apply class_indices_lookup|].
  split; [by apply lookup_lt_Some in Hj|].
  split; [apply (Hempty training) | apply (Hempty validation)].
Qed.

Lemma stray_file_is_empty_class_witness :
  ∃ j, Loader.class_indices (train_data_gen stray_fs) !! "Thumbs.db" = Some j ∧
       Loader.class_indices (val_data_gen stray_fs) !! "Thumbs.db" = Some j ∧
       j < Loader.num_classes (train_data_gen stray_fs) ∧
       (j ∉ Loader.sample_classes (train_data_gen stray_fs)) ∧
       (j ∉ Loader.sample_classes (val_data_gen stray_fs)).
Proof.
  apply (stray_file_is_empty_class stray_fs "Thumbs.db").
  - refine (bool_decide_unpack _ _). vm_compute. exact I.
  - unfold stray_fs, root_with_stray_file. repeat constructor.
  - discriminate.
Defined.

(** ** The loop with the stop condition of the comment *)

Section PrintThemAll.
Variable load_img : string → nat → nat → nat → nat → nat → Byte.byte.
Variable random_permutation : Z → nat → list nat.
Variable predict : Image → list Q.

Local Abbreviation draw_batches := (Loader.take_batches load_img random_permutation).

Lemma take_batches_length (k : nat) (it it' : Loader.DirectoryIterator) (bl : list Batch) :
  draw_batches k it = Ok (bl, it') → length bl = k.
Proof.
  revert it bl. induction k as [|k IH]; intros it bl; simpl.
  - by intros [= <- <-].
  - intros H. apply bind_Ok in H as ([b it1] & _ & H).
    apply bind_Ok in H as ([bl' it2] & Htake & [= <- <-]).
    simpl. f_equal. by eapply IH.
Qed.

Lemma eval_loop_step {St : Type} (next : St → Result (option (Batch * St)))
    (class_names : list string) (fuel limit : nat) (st : St) (batch_count : nat)
    (figures : list Figure) :
  eval_loop next predict class_names (S fuel) limit st batch_count figures
  = (o ← next st;
     match o with
     | None => Ok (Some (figures, by_exhaustion))
     | Some (b, st') =>
         fig ← render_batch predict class_names (batch_count + 1) b;
         if decide (batch_count + 1 = limit)
         then Ok (Some (figures ++ [fig], by_break))
         else eval_loop next predict class_names fuel limit st' (batch_count + 1)
                (figures ++ [fig])
     end).
Proof. reflexivity. Qed.

(** As long as the limit falls within the batches drawn, looping over the
    iterator is looping over the list of these batches. *)
Lemma eval_loop_directory_as_list (class_names : list string) (k : nat)
    (it it' : Loader.DirectoryIterator) (bl : list Batch)
    (fuel limit batch_count : nat) (figures : list Figure) :
  draw_batches k it = Ok (bl, it') →
  batch_count < limit ≤ batch_count + k →
  eval_loop (directory_next load_img random_permutation) predict class_names
    fuel limit it batch_count figures
  = eval_loop list_next predict class_names fuel limit bl batch_count figures.
Proof.
  revert it bl fuel batch_count figures.
  induction k as [|k IH]; intros it bl fuel c figures Htake Hlimit; [lia|].
  simpl in Htake. apply bind_Ok in Htake as ([b it1] & Hnext & Htake).
  apply bind_Ok in Htake as ([bl' it2] & Htake & [= <- <-]).
  destruct fuel as [|fuel]; [done|].
  assert (Hdn : directory_next load_img random_permutation it = Ok (Some (b, it1))).
  { unfold directory_next. by rewrite Hnext. }
  rewrite !eval_loop_step, Hdn. simpl.
  destruct (render_batch predict class_names (c + 1) b) as [fig|e]; simpl; [|done].
  destruct (decide (c + 1 = limit)) as [Heq | Hne]; [done|].
  apply IH; [exact Htake | lia].
Qed.

Hypothesis random_permutation_perm : ∀ s n, random_permutation s n ≡ₚ seq 0 n.

Lemma take_batches_renderable (k : nat) (it it' : Loader.DirectoryIterator)
    (bl : list Batch) :
  Loader.well_formed it → Loader.index_ok it →
  0 < Loader.samples it →
  0 < batch_size (Loader.args it) ≤ 32 →
  (∀ img, length (predict img) = size (Loader.class_indices it)) →
  0 < size (Loader.class_indices it) →
  draw_batches k it = Ok (bl, it') →
  Forall (renderable predict (class_names_of it)) bl.
Proof.
  revert it bl. induction k as [|k IH]; intros it bl Hwf Hok Hn Hbs Hout Hpos; simpl.
  - intros [= <- <-]. constructor.
  - rewrite (LoaderFacts.next_total load_img random_permutation random_permutation_perm
               it Hwf Hok).
    simpl. intros H. apply bind_Ok in H as ([bl' it2] & Htake & [= <- <-]).
    destruct (LoaderFacts.next_positions random_permutation random_permutation_perm it Hok)
      as (Hidx & Hle & _).
    pose proof (LoaderFacts.next_positions_nonempty random_permutation
                  random_permutation_perm it Hok Hn (proj1 Hbs)) as Hnz.
    constructor.
    + apply batch_of_renderable; [done | done | lia | done | done].
    + refine (IH (Loader.advance random_permutation it) bl' _ _ Hn Hbs Hout Hpos Htake).
      * apply (LoaderFacts.same_loader_well_formed it);
          [apply LoaderFacts.advance_same_loader | done].
      * by apply LoaderFacts.advance_index_ok.
Qed.

End PrintThemAll.

(** X15: with the stop condition of the comment, [batch_count ==
    len(val_data_gen)], and at least one validation file, the loop prints
    them all: it draws one figure for each batch of one pass over the
    validation subset and then leaves by [break]; put end to end, the
    batches it draws are the validation samples in listing order, each
    once, and each figure has one sub-plot per sample of its batch. *)
Theorem notebook_report_all_batches (fs : FileSystem)
    (load_img : string → nat → nat → nat → nat → nat → Byte.byte)
    (random_permutation : Z → nat → list nat)
    (predict : Image → list Q) (fuel : nat) :
  (∀ s n, random_permutation s n ≡ₚ seq 0 n) →
  NoDup (item_name <$> fs data_dir) →
  (∀ img, length (predict img) = Loader.num_classes (train_data_gen fs)) →
  0 < Loader.samples (val_data_gen fs) →
  Loader.len (val_data_gen fs) < fuel →
  ∃ figs bl it',
    Loader.take_batches load_img random_permutation (Loader.len (val_data_gen fs))
      (val_data_gen fs) = Ok (bl, it') ∧
    Loader.batch_index it' = 0 ∧
    mjoin (image_batch <$> bl)
    = image_batch (Loader.batch_of load_img (val_data_gen fs)
                     (seq 0 (Loader.samples (val_data_gen fs)))) ∧
    eval_loop (directory_next load_img random_permutation) predict
      (class_names_of (val_data_gen fs)) fuel (Loader.len (val_data_gen fs))
      (val_data_gen fs) 0 []
    = Ok (Some (figs, by_break)) ∧
    length figs = Loader.len (val_data_gen fs) ∧
    ∀ k fig, figs !! k = Some fig →
             ∃ b, bl !! k = Some b ∧
                  render_batch predict (class_names_of (val_data_gen fs)) (k + 1) b = Ok fig ∧
                  length (subplots fig) = shape0 b.
Proof.
  intros Hperm Hnd Hpredict Hn Hfuel.
  set (it0 := val_data_gen fs) in *.
  destruct (BatchFacts.notebook_loaders_well_formed fs it0 Hnd (or_intror eq_refl))
    as (Hwf & Hok & _ & Hbs & _ & _ & Hsize & _).
  assert (Hbi : Loader.batch_index it0 = 0) by reflexivity.
  assert (Hord : Loader.pass_order random_permutation it0 = seq 0 (Loader.samples it0))
    by reflexivity.
  assert (Hlen : Loader.len it0 = (Loader.samples it0 + 32 - 1) / 32) by reflexivity.
  unfold BATCH_SIZE in Hbs.
  assert (Hout : ∀ img, length (predict img) = size (Loader.class_indices it0)).
  { intros img. rewrite Hpredict, Hsize. done. }
  clearbody it0.
  assert (Hpos : 0 < size (Loader.class_indices it0)).
  { destruct Hwf as (_ & Hsc & Hci).
    destruct (Loader.sample_classes it0) as [|c cs] eqn:Hcs; [simpl in Hsc; lia|].
    apply Forall_cons in Hci as [Hc _]. lia. }
  destruct (pass_count_bounds (Loader.samples it0) 32 Hn) as [Hlow Hhigh]; [lia|].
  destruct (rest_of_pass load_img random_permutation Hperm (Loader.len it0) it0 Hwf Hok)
    as (bl & it' & Htake & Hend & Himg & _).
  { rewrite Hbs. lia. }
  { rewrite Hbi, Hbs. lia. }
  { rewrite Hbi, Hbs, Hlen. lia. }
  { rewrite Hbi, Hbs, Hlen. lia. }
  rewrite Hbi, Hord in Himg. simpl in Himg.
  pose proof (take_batches_length load_img random_permutation _ _ _ _ Htake) as Hbl.
  assert (Hall : Forall (renderable predict (class_names_of it0)) bl).
  { apply (take_batches_renderable load_img random_permutation predict Hperm
             (Loader.len it0) it0 it'); try done. lia. }
  assert (Hk : 1 ≤ Loader.len it0).
  { rewrite Hlen. destruct ((Loader.samples it0 + 32 - 1) / 32); [simpl in Hhigh; lia | lia]. }
  destruct (eval_loop_list_from predict (class_names_of it0) (Loader.len it0) bl fuel 0 [] Hall)
    as (figs & Hloop & Hfigs_len & Hfigs); [lia|].
  assert (Hin : 0 < Loader.len it0 ≤ 0 + length bl) by lia.
  rewrite (decide_True _ _ Hin) in Hloop. rewrite (decide_True _ _ Hin) in Hfigs_len.
  simpl in Hloop.
  exists figs, bl, it'. split; [exact Htake|]. split; [exact Hend|].
  split; [exact Himg|]. split.
  - rewrite (eval_loop_directory_as_list load_img random_permutation predict _
               (Loader.len it0) it0 it' bl); [exact Hloop | exact Htake | lia].
  - split; [lia|]. intros k fig Hfig.
    destruct (Hfigs k fig Hfig) as (b & Hb & Hdraw). exists b.
    split; [exact Hb|]. split; [exact Hdraw|].
    rewrite Forall_forall in Hall.
    destruct (ReportFacts.render_batch_total predict (class_names_of it0) (k + 1) b)
      as (fig' & Hdraw' & Hcount).
    { apply Hall. by apply list_elem_of_lookup_2 in Hb. }
    simpl in Hdraw. rewrite Hdraw in Hdraw'. by injection Hdraw' as <-.
Qed.

Lemma notebook_report_all_batches_witness :
  ∃ figs bl it',
    Loader.take_batches sample_load_img sample_permutation
      (Loader.len (val_data_gen sample_fs)) (val_data_gen sample_fs) = Ok (bl, it') ∧
    Loader.batch_index it' = 0 ∧
    mjoin (image_batch <$> bl)
    = image_batch (Loader.batch_of sample_load_img (val_data_gen sample_fs)
                     (seq 0 (Loader.samples (val_data_gen sample_fs)))) ∧
    eval_loop (directory_next sample_load_img sample_permutation) sample_predict
      (class_names_of (val_data_gen sample_fs)) 2 (Loader.len (val_data_gen sample_fs))
      (val_data_gen sample_fs) 0 []
    = Ok (Some (figs, by_break)) ∧
    length figs = Loader.len (val_data_gen sample_fs) ∧
    ∀ k fig, figs !! k = Some fig →
             ∃ b, bl !! k = Some b ∧
                  render_batch sample_predict (class_names_of (val_data_gen sample_fs))
                    (k + 1) b = Ok fig ∧
                  length (subplots fig) = shape0 b.
Proof.
  apply (notebook_report_all_batches sample_fs sample_load_img sample_permutation
           sample_predict 2).
  - intros s n. apply reverse_Permutation.
  - refine (bool_decide_unpack _ _). vm_compute. exact I.
  - intros img. reflexivity.
  - vm_compute. lia.
  - vm_compute. lia.
Defined.
